(** * Li-Mat Frontier RSS aggregation: scoring, categorisation, quota selection

    A shallow embedding of the article pipeline of [scripts/fetch-rss-new.js]
    (the keyword edition, with the Qwen summariser) and of
    [scripts/fetch-rss-optimized.js] (the recency-only edition, with the
    Doubao and DeepSeek summarisers), and the properties of the pipeline.

    Modelling conventions.
    - A JavaScript string is the list of its UTF-16 code units ([list N]).
    - An article's [date] is the millisecond time value of the [Date] that
      the script stores as an ISO string ([new Date(a.date).getTime()]
      reads it back unchanged).
    - [relevanceScore] is an integer; [finalScore] is held as a rational.
      Every finite double is a rational, so the selection stage is stated
      for arbitrary rational scores; [calculateFinalScore] itself is
      evaluated in exact arithmetic (rounding of doubles is not modelled).
    - [Array.prototype.sort] with a consistent comparator is a stable sort;
      it is modelled by a stable insertion sort.
    - [String.prototype.toLowerCase] is a parameter of the development. *)

From Stdlib Require Import QArith Lqa.
From stdpp Require Import gmap list strings sorting.

Local Open Scope Z_scope.

(** ** Strings *)

Abbreviation jsstring := (list N).

(** The code units of an ASCII literal. *)
Definition str (s : string) : jsstring :=
  map Ascii.N_of_ascii (String.list_ascii_of_string s).

(** [s.startsWith(p)] at position 0. *)
Fixpoint startsWith (s p : jsstring) : bool :=
  match p, s with
  | [], _ => true
  | _ :: _, [] => false
  | c :: p', d :: s' => (c =? d)%N && startsWith s' p'
  end.

(** [s.includes(p)]: [p] occurs in [s] at some position. *)
Fixpoint includes (s p : jsstring) : bool :=
  startsWith s p ||
  match s with
  | [] => false
  | _ :: s' => includes s' p
  end.

(** [s.substring(0, n)]. *)
Definition substring0 (n : nat) (s : jsstring) : jsstring := take n s.

(** Lower-casing of the ASCII letters only; it agrees with
    [toLowerCase] on strings of ASCII code units. *)
Definition asciiLowerUnit (c : N) : N :=
  if ((65 <=? c) && (c <=? 90))%N then (c + 32)%N else c.

Definition asciiLower (s : jsstring) : jsstring := map asciiLowerUnit s.

Definition isAscii (s : jsstring) : Prop := Forall (λ c, (c < 128)%N) s.

(** [/[\u4e00-\u9fa5]/.test(text)], with the [!text] guard (the empty
    string is falsy and contains nothing in the range anyway). *)
Definition isChinese (text : jsstring) : bool :=
  match text with
  | [] => false
  | _ => existsb (λ c, (0x4e00 <=? c) && (c <=? 0x9fa5))%N text
  end.

Definition ellipsis : jsstring := str "...".

(** [text.substring(0, 150) + '...'] *)
Definition fallbackSummary (text : jsstring) : jsstring :=
  substring0 150 text ++ ellipsis.

(** ** Articles *)

Record Article := mkArticle {
  title : jsstring;
  link : jsstring;
  date : Z;
  category : jsstring;
  description : jsstring;
  summary : jsstring;
  relevanceScore : option Z;  (* [None]: the property is undefined *)
  finalScore : option Q
}.

Definition set_category (c : jsstring) (a : Article) : Article :=
  mkArticle (title a) (link a) (date a) c (description a) (summary a)
            (relevanceScore a) (finalScore a).

Definition set_relevanceScore (s : Z) (a : Article) : Article :=
  mkArticle (title a) (link a) (date a) (category a) (description a)
            (summary a) (Some s) (finalScore a).

Definition set_finalScore (s : Q) (a : Article) : Article :=
  mkArticle (title a) (link a) (date a) (category a) (description a)
            (summary a) (relevanceScore a) (Some s).

Definition set_summary (s : jsstring) (a : Article) : Article :=
  mkArticle (title a) (link a) (date a) (category a) (description a)
            s (relevanceScore a) (finalScore a).

(** An article as [fetchRSS] of the keyword edition creates it. *)
Definition rawArticle (t l : jsstring) (d : Z) (desc : jsstring) : Article :=
  mkArticle t l d [] desc [] None None.

(** ** Keyword configuration *)

Record Keywords := mkKeywords {
  include : list jsstring;
  exclude : list jsstring
}.

(** The object literal [CATEGORY_KEYWORDS], in the order of its keys
    ([Object.keys] enumerates string keys in insertion order). *)
Abbreviation Config := (list (jsstring * Keywords)).

Definition cat_materials : jsstring := [0x6750; 0x6599; 0x521b; 0x65b0]%N.
Definition cat_corrosion : jsstring := [0x6c7d; 0x8f66; 0x9632; 0x8150]%N.
Definition cat_health : jsstring := [0x8f66; 0x5185; 0x5065; 0x5eb7]%N.

Definition CATEGORY_KEYWORDS : Config :=
  [ (cat_materials,
     mkKeywords
       (map str
          ["aluminum"; "aluminium"; "steel"; "alloy"; "metal"; "titanium";
           "magnesium"; "lightweight metal"; "automotive metal";
           "carbon fiber"; "carbon fibre"; "composite"; "plastic";
           "polymer"; "automotive plastic"; "thermoplastic"; "resin";
           "fiber glass"; "fiberglass"]%string)
       (map str ["semiconductor"; "chip"; "processor"; "cpu"; "gpu"]%string));
    (cat_corrosion,
     mkKeywords
       (map str
          ["corrosion"; "anti-corrosion"; "coating"; "paint";
           "surface treatment"; "rust"; "galvaniz"; "cathodic protection";
           "automotive coating"]%string)
       []);
    (cat_health,
     mkKeywords
       (map str
          ["formaldehyde"; "voc"; "volatile organic"; "odor"; "odour";
           "low-odor"; "interior material"; "cabin air"; "air quality";
           "low-emission"; "indoor air"; "emission"; "toxic"; "health";
           "safety"; "cleanroom"; "antimicrobial"; "antibacterial";
           "hypoallergenic"; "eco-friendly"; "non-toxic"; "green material";
           "sustainable interior"; "bio-based"; "natural fiber";
           "recycled fabric"; "breathable"; "ventilation"]%string)
       []) ].

(** [Object.keys(cfg)] *)
Definition keys (cfg : Config) : list jsstring := map fst cfg.

(** [cfg[category]]; [None] is [undefined]. *)
Fixpoint lookupCategory (cfg : Config) (c : jsstring) : option Keywords :=
  match cfg with
  | [] => None
  | (k, v) :: rest => if decide (k = c) then Some v else lookupCategory rest c
  end.

(** ** Relevance scoring and category assignment (keyword edition) *)

Section Scoring.

Variable toLowerCase : jsstring → jsstring.
Variable cfg : Config.

(** [`${article.title} ${article.description}`.toLowerCase()] *)
Definition searchTextOf (article : Article) : jsstring :=
  toLowerCase (title article ++ [32%N] ++ description article).

(** One iteration of the loop over [keywords.include]. *)
Definition countInclude (article : Article) (matchCount : Z)
    (includeWord : jsstring) : Z :=
  if includes (searchTextOf article) (toLowerCase includeWord) then
    if includes (toLowerCase (title article)) (toLowerCase includeWord)
    then matchCount + 1 + 2
    else matchCount + 1
  else matchCount.

Definition calculateRelevanceScore (article : Article)
    (category : jsstring) : Z :=
  match lookupCategory cfg category with
  | None => 0
  | Some keywords =>
      if existsb (λ excludeWord,
                    includes (searchTextOf article) (toLowerCase excludeWord))
                 (exclude keywords)
      then 0
      else
        let matchCount :=
          fold_left (countInclude article) (include keywords) 0 in
        Z.min 100 (matchCount * 10)
  end.


(** The loop of [assignCategory]: the state is
    [(bestCategory, bestScore)], [None] being [null]. *)
Definition assignStep (article : Article) (best : option jsstring * Z)
    (category : jsstring) : option jsstring * Z :=
  let score := calculateRelevanceScore article category in
  if snd best <? score then (Some category, score) else best.

Definition assignCategory (article : Article) : option jsstring * Z :=
  fold_left (assignStep article) (keys cfg) (None, 0).

(** Truthiness of [result.category]: [null] and [''] are falsy. *)
Definition truthy (c : option jsstring) : bool :=
  match c with
  | Some (_ :: _) => true
  | _ => false
  end.

(** Step 3 of [main]: keep the articles that got a category, recording
    the category and the score on them. *)
Definition categorizeOne (article : Article) : list Article :=
  let result := assignCategory article in
  if truthy (fst result)
  then [set_relevanceScore (snd result)
          (set_category (default [] (fst result)) article)]
  else [].

Definition categorize (uniqueArticles : list Article) : list Article :=
  flat_map categorizeOne uniqueArticles.

End Scoring.

(** ** Deduplication by title (both editions) *)

(** The body of [allArticles.forEach]: the state is
    [(uniqueArticles, titles)]. *)
Definition dedupStep (st : list Article * gset jsstring) (article : Article)
    : list Article * gset jsstring :=
  if decide (title article ∈ st.2) then st
  else (st.1 ++ [article], {[title article]} ∪ st.2).

Definition dedup (allArticles : list Article) : list Article :=
  (fold_left dedupStep allArticles ([], ∅)).1.

(** ** Sorting *)

(** [arr.sort(cmp)]: [x] stays in front of [y] when [cmp(x, y) <= 0]. *)
Section Sort.
Context {A : Type} (cmp : A → A → Q).

Fixpoint sortInsert (x : A) (l : list A) : list A :=
  match l with
  | [] => [x]
  | y :: l' =>
      if Qle_bool (cmp x y) 0 then x :: y :: l' else y :: sortInsert x l'
  end.

Definition jsSort (l : list A) : list A := foldr sortInsert [] l.
End Sort.

(** [arr.slice(0, end)]; a negative [end] counts from the end. *)
Definition slice0 {A} (end_ : Z) (l : list A) : list A :=
  if end_ <? 0
  then take (Z.to_nat (Z.max (Z.of_nat (length l) + end_) 0)) l
  else take (Z.to_nat end_) l.

(** [x - y] on possibly undefined numbers; [NaN] counts as [0] in a
    comparator. *)
Definition cmpSub {T : Type} (sub : T → T → Q) (x y : option T) : Q :=
  match x, y with
  | Some a, Some b => sub a b
  | _, _ => 0%Q
  end.

(** [(a, b) => new Date(b.date) - new Date(a.date)] *)
Definition cmpDate (a b : Article) : Q := inject_Z (date b - date a).

(** [(a, b) => b.finalScore - a.finalScore] *)
Definition cmpFinalScore (a b : Article) : Q :=
  cmpSub Qminus (finalScore b) (finalScore a).

(** [(a, b) => b.relevanceScore - a.relevanceScore] *)
Definition cmpRelevance (a b : Article) : Q :=
  cmpSub (λ x y, inject_Z (x - y)) (relevanceScore b) (relevanceScore a).

(** ** Ranking (keyword edition) *)

(** [Math.max(...l)] and [Math.min(...l)]; [None] stands for the
    infinities returned on no argument. *)
Definition Math_max (l : list Z) : option Z :=
  match l with
  | [] => None
  | x :: r => Some (fold_left Z.max r x)
  end.

Definition Math_min (l : list Z) : option Z :=
  match l with
  | [] => None
  | x :: r => Some (fold_left Z.min r x)
  end.

Definition calculateFinalScore (article : Article) (maxDate minDate : Z) : Q :=
  let articleTime := date article in
  let timeRange := maxDate - minDate in
  let timeScore : Q :=
    if 0 <? timeRange
    then ((inject_Z (articleTime - minDate) / inject_Z timeRange) * 100)%Q
    else 50%Q in
  (inject_Z (default 0%Z (relevanceScore article)) * (1 # 2)
   + timeScore * (1 # 2))%Q.

(** Step 4 of [main]: every categorised article gets its [finalScore]. *)
Definition scoreAll (categorizedArticles : list Article) : list Article :=
  let dates := map date categorizedArticles in
  match Math_max dates, Math_min dates with
  | Some maxDate, Some minDate =>
      map (λ a, set_finalScore (calculateFinalScore a maxDate minDate) a)
          categorizedArticles
  | _, _ => categorizedArticles
  end.

(** ** Quota selection (keyword edition) *)

Definition MIN_PER_CATEGORY : nat := 3.
Definition TOTAL_LIMIT : Z := 50.

(** The candidates of one category in phase 1. *)
Definition categoryArticlesOf (arts : list Article) (used : gset jsstring)
    (c : jsstring) : list Article :=
  jsSort cmpRelevance
    (filter (λ a, category a = c ∧ link a ∉ used) arts).

(** The body of [categories.forEach]: the state is
    [(limitedArticles, usedArticles)]. *)
Definition quotaStep (arts : list Article)
    (st : list Article * gset jsstring) (c : jsstring)
    : list Article * gset jsstring :=
  let categoryArticles := categoryArticlesOf arts st.2 c in
  let quota := Nat.min MIN_PER_CATEGORY (length categoryArticles) in
  let picked := take quota categoryArticles in
  (st.1 ++ picked, st.2 ∪ list_to_set (map link picked)).

Definition phase1 (cfg : Config) (arts : list Article)
    : list Article * gset jsstring :=
  fold_left (quotaStep arts) (keys cfg) ([], ∅).

Definition phase2 (arts : list Article) (st : list Article * gset jsstring)
    : list Article :=
  let remaining := TOTAL_LIMIT - Z.of_nat (length st.1) in
  slice0 remaining (filter (λ a, link a ∉ st.2) arts).

(** Step 5 of [main], on the articles sorted by [finalScore]. *)
Definition selectQuota (cfg : Config) (arts : list Article) : list Article :=
  let st := phase1 cfg arts in
  st.1 ++ phase2 arts st.

(** ** The two pipelines, from the fetched articles to [limitedArticles] *)

(** Recency-only edition ([fetch-rss-optimized.js], and the first
    script): deduplicate, sort by date, keep 50. *)
Definition limitedArticles_recency (allArticles : list Article)
    : list Article :=
  slice0 50 (jsSort cmpDate (dedup allArticles)).

(** Keyword edition. *)
Definition categorizedArticles_of (toLowerCase : jsstring → jsstring)
    (cfg : Config) (allArticles : list Article) : list Article :=
  categorize toLowerCase cfg (dedup allArticles).

Definition limitedArticles_blended (toLowerCase : jsstring → jsstring)
    (cfg : Config) (allArticles : list Article) : list Article :=
  selectQuota cfg
    (jsSort cmpFinalScore
       (scoreAll (categorizedArticles_of toLowerCase cfg allArticles))).

(** ** Summarisation *)

(** [String.prototype.trim]: white space and line terminators. *)
Definition isWhiteSpace (c : N) : bool :=
  ((9 <=? c) && (c <=? 13) || (c =? 32) || (c =? 0xA0) || (c =? 0x1680)
   || (0x2000 <=? c) && (c <=? 0x200A) || (c =? 0x2028) || (c =? 0x2029)
   || (c =? 0x202F) || (c =? 0x205F) || (c =? 0x3000) || (c =? 0xFEFF))%N.

Fixpoint trimStart (s : jsstring) : jsstring :=
  match s with
  | c :: s' => if isWhiteSpace c then trimStart s' else s
  | [] => []
  end.

Definition trim (s : jsstring) : jsstring :=
  reverse (trimStart (reverse (trimStart s))).

(** What one attempt of a provider call meets. *)
Inductive Outcome :=
| FetchThrows                              (* [fetch] rejects *)
| HttpError (status : Z) (bodyReads : bool) (* [!response.ok]; whether
                                               [response.text()] resolves *)
| OkThrows                                 (* [response.json()] rejects, or
                                              reading the content throws *)
| OkMalformed                              (* the expected fields are missing *)
| OkSummary (content : jsstring).          (* the generated text *)

(** What a call did: the string it resolved to, the number of requests
    it sent and the delays (in milliseconds) it waited, in order. *)
Record Run := mkRun {
  returned : jsstring;
  fetches : nat;
  delays : list Z
}.

(** The process environment read at start-up; [None] is [undefined]. *)
Record Env := mkEnv {
  AI_PROVIDER_var : option jsstring;
  DOUBAO_API_KEY : option jsstring;
  DEEPSEEK_API_KEY : option jsstring;
  QWEN_API_KEY : option jsstring
}.

(** [!apiKey] *)
Definition unset (apiKey : option jsstring) : bool :=
  match apiKey with
  | Some (_ :: _) => false
  | _ => true
  end.

(** [Math.pow(2, attempt) * 3000] *)
Definition waitTime (attempt : nat) : Z := 2 ^ Z.of_nat attempt * 3000.

Definition isRateLimit (status : Z) : bool := (status =? 429) || (status =? 503).

Section Summariser.

(** [net n] is what the request of attempt [n] (from 0) meets. *)
Variable net : nat → Outcome.
Variable text : jsstring.
Variable retries : nat.

(** The retry loop of [generateSummaryWithDoubao] and of
    [generateSummaryWithDeepSeek] (the two differ in the URL and the
    prompt only). [remaining] is [retries - attempt]. *)
Fixpoint chatLoop (remaining attempt : nat) (waited : list Z) : Run :=
  match remaining with
  | 0 => mkRun (fallbackSummary text) attempt waited
  | S remaining' =>
      let retry := chatLoop remaining' (S attempt)
                     (waited ++ [waitTime attempt]) in
      (* the [catch] block *)
      let caught :=
        if attempt <? retries - 1 then retry
        else mkRun (fallbackSummary text) (S attempt) waited in
      match net attempt with
      | FetchThrows => caught
      | HttpError status _ =>
          if isRateLimit status && (attempt <? retries - 1) then retry
          else caught (* [throw new Error] inside the [try] *)
      | OkThrows => caught
      | OkMalformed => caught (* [throw new Error] inside the [try] *)
      | OkSummary content => mkRun (trim content) (S attempt) waited
      end
  end%nat.

(** The retry loop of [generateSummaryWithQwen]. *)
Fixpoint qwenLoop (remaining attempt : nat) (waited : list Z) : Run :=
  match remaining with
  | 0 => mkRun (fallbackSummary text) attempt waited
  | S remaining' =>
      let retry := qwenLoop remaining' (S attempt)
                     (waited ++ [waitTime attempt]) in
      let caught :=
        if attempt <? retries - 1 then retry
        else mkRun (fallbackSummary text) (S attempt) waited in
      match net attempt with
      | FetchThrows => caught
      | HttpError status bodyReads =>
          if bodyReads then
            if isRateLimit status && (attempt <? retries - 1) then retry
            else mkRun (fallbackSummary text) (S attempt) waited
          else caught
      | OkThrows => caught
      | OkMalformed => mkRun (fallbackSummary text) (S attempt) waited
      | OkSummary content =>
          match content with
          | [] => mkRun (fallbackSummary text) (S attempt) waited
          | _ => mkRun (trim content) (S attempt) waited
          end
      end
  end%nat.

Definition generateSummaryWithDoubao (env : Env) : Run :=
  if unset (DOUBAO_API_KEY env) then mkRun (fallbackSummary text) 0 []
  else chatLoop retries 0 [].

Definition generateSummaryWithDeepSeek (env : Env) : Run :=
  if unset (DEEPSEEK_API_KEY env) then mkRun (fallbackSummary text) 0 []
  else chatLoop retries 0 [].

Definition generateSummaryWithQwen (env : Env) : Run :=
  if unset (QWEN_API_KEY env) then mkRun (fallbackSummary text) 0 []
  else if isChinese text then mkRun (fallbackSummary text) 0 []
  else qwenLoop retries 0 [].

End Summariser.

(** [process.env.AI_PROVIDER || 'doubao'] *)
Definition AI_PROVIDER (env : Env) : jsstring :=
  match AI_PROVIDER_var env with
  | Some (c :: s) => c :: s
  | _ => str "doubao"
  end.

(** [generateSummary] of the recency-only edition; the providers are
    called with their default [retries = 3]. *)
Definition generateSummary (env : Env) (net : nat → Outcome)
    (text : jsstring) : Run :=
  if isChinese text then mkRun (fallbackSummary text) 0 []
  else if decide (AI_PROVIDER env = str "deepseek")
       then generateSummaryWithDeepSeek net text 3 env
       else generateSummaryWithDoubao net text 3 env.

(** The summariser of the keyword edition, as [generateSummariesBatch]
    calls it. *)
Definition summarize_new (env : Env) (net : nat → Outcome)
    (text : jsstring) : Run :=
  generateSummaryWithQwen net text 3 env.

(** The policy as the specification words it: up to 3 attempts, a retry
    only on status 429 or 503 with delays 3 s, 6 s, ..., and the fallback
    on any other failure or when the attempts are used up. *)
Fixpoint specLoop (net : nat → Outcome) (text : jsstring)
    (remaining attempt : nat) (waited : list Z) : Run :=
  match remaining with
  | O => mkRun (fallbackSummary text) attempt waited
  | S remaining' =>
      match net attempt with
      | OkSummary content => mkRun (trim content) (S attempt) waited
      | HttpError status _ =>
          if isRateLimit status && negb (remaining' =? 0)%nat
          then specLoop net text remaining' (S attempt)
                 (waited ++ [3000 * 2 ^ Z.of_nat attempt])
          else mkRun (fallbackSummary text) (S attempt) waited
      | _ => mkRun (fallbackSummary text) (S attempt) waited
      end
  end.

Definition summarize_spec (net : nat → Outcome) (text : jsstring) : Run :=
  specLoop net text 3 0 [].

(** ** Snapshot *)

(** [generateSummariesBatch]: article [i] gets the result of its own
    call; [net i] is what the attempts of that call meet. In the
    recency-only edition the source text
    [article.description || article.content || ''] is the description
    (articles have no [content] property). *)
Definition generateSummariesBatch_new (env : Env) (net : nat → nat → Outcome)
    (articles : list Article) : list Article :=
  if unset (QWEN_API_KEY env)
  then map (λ a, set_summary (fallbackSummary (description a)) a) articles
  else imap (λ i a,
               set_summary (returned (summarize_new env (net i) (description a))) a)
            articles.

Definition generateSummariesBatch_optimized (env : Env)
    (net : nat → nat → Outcome) (articles : list Article) : list Article :=
  imap (λ i a,
          set_summary (returned (generateSummary env (net i) (description a))) a)
       articles.

Record Snapshot := mkSnapshot {
  totalArticles : nat;
  categories : list jsstring;
  articles : list Article
}.

(** [main] of the keyword edition, from the fetched articles to the
    object written to [data/news.json] (the time stamps left out), for a
    keyword configuration [cfg]. *)
Definition main_blended (toLowerCase : jsstring → jsstring) (cfg : Config)
    (env : Env) (net : nat → nat → Outcome) (allArticles : list Article)
    : Snapshot :=
  let limitedArticles :=
    generateSummariesBatch_new env net
      (limitedArticles_blended toLowerCase cfg allArticles) in
  mkSnapshot (length limitedArticles) (keys cfg) limitedArticles.

(** The script runs it on its constant [CATEGORY_KEYWORDS]. *)
Definition main_new (toLowerCase : jsstring → jsstring) (env : Env)
    (net : nat → nat → Outcome) (allArticles : list Article) : Snapshot :=
  main_blended toLowerCase CATEGORY_KEYWORDS env net allArticles.

(** [main] of the recency-only edition; [sourceCategories] are the keys
    of its [RSS_SOURCES]. *)
Definition main_optimized (sourceCategories : list jsstring) (env : Env)
    (net : nat → nat → Outcome) (allArticles : list Article) : Snapshot :=
  let limited := limitedArticles_recency allArticles in
  let limitedArticles :=
    if negb (unset (DOUBAO_API_KEY env)) || negb (unset (DEEPSEEK_API_KEY env))
    then generateSummariesBatch_optimized env net limited
    else map (λ a, set_summary (fallbackSummary (description a)) a) limited in
  mkSnapshot (length limitedArticles) sourceCategories limitedArticles.

(** * Definitions for the statements *)

(** ** Reference definitions, after the wording of the specification *)

(** The points of one include keyword: one when it occurs in the text,
    two more when it also occurs in the title. *)
Definition keywordPoints (text titleText w : jsstring) : Z :=
  if includes text w then 1 + (if includes titleText w then 2 else 0) else 0.

(** The relevance score: 0 on an exclude keyword, else the least of 100
    and 10 times the points of the include keywords. *)
Definition relevance_spec (toLowerCase : jsstring → jsstring)
    (keywords : Keywords) (article : Article) : Z :=
  let text := toLowerCase (title article ++ str " " ++ description article) in
  if existsb (includes text) (exclude keywords) then 0
  else
    let P :=
      foldr (λ w acc,
               keywordPoints text (toLowerCase (title article)) w + acc)
            0 (include keywords) in
    Z.min 100 (10 * P).

(** Every configured keyword is in lower case already. *)
Definition lowerCaseKeywords (toLowerCase : jsstring → jsstring)
    (cfg : Config) : Prop :=
  Forall (λ kv, Forall (λ w, toLowerCase w = w)
                       (include kv.2 ++ exclude kv.2)) cfg.






(** The number of articles of a category. *)
Definition countCategory (c : jsstring) (l : list Article) : nat :=
  length (filter (λ a, category a = c) l).

(** A response with status 429 or 503. *)
Definition rateLimited (o : Outcome) : Prop :=
  ∃ status bodyReads,
    o = HttpError status bodyReads ∧ isRateLimit status = true.

(** A request that fails without a usable response: [fetch], the
    reading of the body or the parsing of it throws. *)
Definition requestThrows (o : Outcome) : Prop :=
  o = FetchThrows ∨ o = OkThrows ∨ ∃ status, o = HttpError status false.

(** What every provider call with the default three attempts does. *)
Definition retryBehaviour (net : nat → Outcome) (text : jsstring) (r : Run)
    : Prop :=
  (* between one and three requests *)
  (1 ≤ fetches r ≤ 3)%nat
  (* the wait after attempt n + 1 is 3 * 2^n seconds *)
  ∧ delays r = map (λ n, 3000 * 2 ^ Z.of_nat n) (seq 0 (fetches r - 1))
  (* a 429 or 503 response or a failed request is retried while attempts
     remain *)
  ∧ (∀ n, (n < fetches r)%nat → (n < 2)%nat →
       rateLimited (net n) ∨ net n = FetchThrows → (S n < fetches r)%nat)
  (* an attempt that yields the text is the last one *)
  ∧ (∀ n content, (S n < fetches r)%nat → net n ≠ OkSummary content)
  (* the call resolves to the text of its last attempt or to the fallback *)
  ∧ (returned r = fallbackSummary text
     ∨ ∃ content, net (fetches r - 1)%nat = OkSummary content
                  ∧ returned r = trim content)
  (* after three attempts without a text it resolves to the fallback *)
  ∧ (fetches r = 3%nat → (∀ content, net 2%nat ≠ OkSummary content) →
     returned r = fallbackSummary text).

(** What the Qwen provider does besides. *)
Definition qwenBehaviour (net : nat → Outcome) (text : jsstring) (r : Run)
    : Prop :=
  (* only a 429 or 503 response or a thrown request error is retried *)
  (∀ n, (S n < fetches r)%nat → rateLimited (net n) ∨ requestThrows (net n))
  (* any other error response ends the call with the fallback *)
  ∧ (∀ n status, (n < fetches r)%nat → net n = HttpError status true →
       isRateLimit status = false →
       fetches r = S n ∧ returned r = fallbackSummary text).

(** ** The loops in recursive form *)

(** The articles that [dedup] keeps, given the titles already seen. *)
Fixpoint dedupFrom (seen : gset jsstring) (l : list Article) : list Article :=
  match l with
  | [] => []
  | a :: l' =>
      if decide (title a ∈ seen) then dedupFrom seen l'
      else a :: dedupFrom ({[title a]} ∪ seen) l'
  end.

(** The picks of phase 1, one group per category, given the links
    already used. *)
Fixpoint quotaGroups (arts : list Article) (used : gset jsstring)
    (cs : list jsstring) : list (list Article) :=
  match cs with
  | [] => []
  | c :: cs' =>
      let picked := take MIN_PER_CATEGORY (categoryArticlesOf arts used c) in
      picked :: quotaGroups arts (used ∪ list_to_set (map link picked)) cs'
  end.

Definition usedAfter (used : gset jsstring) (groups : list (list Article))
    : gset jsstring :=
  used ∪ list_to_set (map link (concat groups)).



(** What a provider does with the outcome of an attempt: return the
    generated text, return the fallback, or go to the retry test
    [attempt < retries - 1]. *)
Inductive Action :=
| Succeed (s : jsstring)
| Fail
| Retryable.

Definition classifyChat (o : Outcome) : Action :=
  match o with
  | OkSummary content => Succeed (trim content)
  | _ => Retryable
  end.

Definition classifyQwen (o : Outcome) : Action :=
  match o with
  | OkSummary (c :: content) => Succeed (trim (c :: content))
  | OkSummary [] => Fail
  | OkMalformed => Fail
  | HttpError status true => if isRateLimit status then Retryable else Fail
  | HttpError _ false => Retryable
  | FetchThrows => Retryable
  | OkThrows => Retryable
  end.

(** The two retry loops in one shape. *)
Fixpoint policyLoop (classify : Outcome → Action) (net : nat → Outcome)
    (text : jsstring) (retries remaining attempt : nat) (waited : list Z)
    : Run :=
  match remaining with
  | O => mkRun (fallbackSummary text) attempt waited
  | S remaining' =>
      match classify (net attempt) with
      | Succeed s => mkRun s (S attempt) waited
      | Fail => mkRun (fallbackSummary text) (S attempt) waited
      | Retryable =>
          if (attempt <? retries - 1)%nat
          then policyLoop classify net text retries remaining' (S attempt)
                 (waited ++ [waitTime attempt])
          else mkRun (fallbackSummary text) (S attempt) waited
      end
  end.

(** ** Example inputs *)

(** The scenario of the specification. *)
Definition article_aluminum : Article :=
  rawArticle (str "Aluminum Alloy Breakthrough") (str "https://example.org/a")
    1000
    (str "researchers developed lightweight aluminum alloy for automotive use").

(** An older article of the first category and a newer one of the
    second category. *)
Definition art_steel : Article :=
  rawArticle (str "Steel news") (str "https://example.org/steel") 1000
             (str "steel prices").

Definition art_coating : Article :=
  rawArticle (str "Coating news") (str "https://example.org/coating") 2000
             (str "a new coating").

(** Four feed items without a [link] element ([item.link || ''] is
    the empty string for each of them). *)
Definition art_nolink_steel : Article :=
  rawArticle (str "Steel news") [] 1000 (str "steel prices").
Definition art_nolink_coating1 : Article :=
  rawArticle (str "Coating one") [] 2000 (str "a new coating").
Definition art_nolink_coating2 : Article :=
  rawArticle (str "Coating two") [] 3000 (str "another coating").
Definition art_nolink_coating3 : Article :=
  rawArticle (str "Coating three") [] 4000 (str "a third coating").

Definition all_nolink : list Article :=
  [art_nolink_steel; art_nolink_coating1; art_nolink_coating2;
   art_nolink_coating3].

(** A description of five ideographs. *)
Definition text_chinese : jsstring :=
  [0x65b0; 0x578b; 0x94dd; 0x5408; 0x91d1]%N.

Definition text_english : jsstring := str "New aluminum alloy for car bodies".

(** No credential at all, and one for every provider. *)
Definition env_none : Env := mkEnv None None None None.

Definition env_keys : Env :=
  mkEnv None (Some (str "doubao-key")) (Some (str "deepseek-key"))
        (Some (str "qwen-key")).

(** The first request fails in the network, the second one succeeds. *)
Definition net_throw_then_ok (n : nat) : Outcome :=
  match n with
  | O => FetchThrows
  | _ => OkSummary (str "ok")
  end.

(** The first response is a 500, the second one succeeds. *)
Definition net_500_then_ok (n : nat) : Outcome :=
  match n with
  | O => HttpError 500 true
  | _ => OkSummary (str "ok")
  end.


(** * The rest of the scripts: feeds, normalisation, batches *)

(** ** [stripHtml] *)

(** [html.replace(/<[^>]*>/g, '')]: a match starts at a ['<'] that has a
    ['>'] somewhere after it and runs to the first such ['>'];
    [inTag] says that the scan is inside a match. *)
Fixpoint removeTags (inTag : bool) (s : jsstring) : jsstring :=
  match s with
  | [] => []
  | c :: s' =>
      if inTag then
        if (c =? 62)%N then removeTags false s' else removeTags true s'
      else if ((c =? 60) && existsb (λ d, d =? 62) s')%N
           then removeTags true s'
           else c :: removeTags false s'
  end.

(** [None] is [undefined]; it and the empty string are falsy. *)
Definition stripHtml (html : option jsstring) : jsstring :=
  match html with
  | Some (c :: s) => trim (removeTags false (c :: s))
  | _ => []
  end.

(** ** Feed items and [fetchRSS] *)

(** The properties of a parsed feed item that the scripts read. *)
Record Item := mkItem {
  item_title : option jsstring;
  item_link : option jsstring;
  item_contentSnippet : option jsstring;
  item_content : option jsstring;
  item_description : option jsstring;
  item_pubDate : option jsstring;
  item_isoDate : option jsstring
}.

(** [x || y] on strings that may be undefined. *)
Definition orJS (x y : option jsstring) : option jsstring :=
  match x with
  | Some (_ :: _) => x
  | _ => y
  end.

Section Fetch.

(** [new Date(s).getTime()] for a string [s], [None] when the date is
    invalid ([toISOString] then throws), and the time of the run. *)
Variable parseDate : jsstring → option Z.
Variable now : Z.

(** [stripHtml(item.contentSnippet || item.content || item.description || '')] *)
Definition itemText (item : Item) : jsstring :=
  stripHtml (orJS (item_contentSnippet item)
               (orJS (item_content item) (item_description item))).

(** [new Date(item.pubDate || item.isoDate || new Date()).toISOString()] *)
Definition itemDate (item : Item) : option Z :=
  match orJS (item_pubDate item) (item_isoDate item) with
  | Some (c :: s) => parseDate (c :: s)
  | _ => Some now
  end.

(** [(item.title || '').trim()] *)
Definition itemTitle (item : Item) : jsstring :=
  trim (default [] (item_title item)).

Definition itemLink (item : Item) : jsstring :=
  trim (default [] (item_link item)).

(** The article of an item in the first script: the summary is filled
    in from the description. *)
Definition articleOf_sequential (category : jsstring) (item : Item)
    : option Article :=
  match itemDate item with
  | Some d =>
      Some (mkArticle (itemTitle item) (itemLink item) d category
              (substring0 500 (itemText item))
              (substring0 150 (itemText item) ++ ellipsis) None None)
  | None => None
  end.

(** In the optimised script the summary waits for the summariser. *)
Definition articleOf_optimized (category : jsstring) (item : Item)
    : option Article :=
  match itemDate item with
  | Some d =>
      Some (mkArticle (itemTitle item) (itemLink item) d category
              (substring0 500 (itemText item)) [] None None)
  | None => None
  end.

(** In the keyword script the category waits for the keyword match. *)
Definition articleOf_keyword (item : Item) : option Article :=
  match itemDate item with
  | Some d =>
      Some (rawArticle (itemTitle item) (itemLink item) d
              (substring0 500 (itemText item)))
  | None => None
  end.

(** The loop over [feed.items] inside the [try]: an exception on any
    item leaves the loop. *)
Fixpoint forItems (articleOf : Item → option Article) (items : list Item)
    : option (list Article) :=
  match items with
  | [] => Some []
  | item :: rest =>
      match articleOf item with
      | Some a =>
          match forItems articleOf rest with
          | Some l => Some (a :: l)
          | None => None
          end
      | None => None
      end
  end.

(** [fetchRSS]: [feed] is what [parser.parseURL(url)] resolves to, [None]
    when it rejects; the [catch] returns the empty array. *)
Definition fetchRSS_with (articleOf : Item → option Article)
    (feed : option (list Item)) : list Article :=
  match feed with
  | Some items => default [] (forItems articleOf items)
  | None => []
  end.

Definition fetchRSS_sequential (feed : option (list Item))
    (category : jsstring) : list Article :=
  fetchRSS_with (articleOf_sequential category) feed.

Definition fetchRSS_optimized (feed : option (list Item))
    (category : jsstring) : list Article :=
  fetchRSS_with (articleOf_optimized category) feed.

Definition fetchRSS_keyword (feed : option (list Item)) : list Article :=
  fetchRSS_with articleOf_keyword feed.

End Fetch.

(** ** Collecting the feeds *)

(** What the scripts gather from the feeds. *)
Record Fetched := mkFetched {
  allArticles : list Article;
  successCount : nat;
  failCount : nat
}.

(** The body of [results.forEach] in [fetchAllRSS]; a result is the
    value of a fulfilled promise, or [None] for a rejected one. *)
Definition collectStep (st : Fetched) (result : option (list Article))
    : Fetched :=
  match result with
  | Some (a :: value) =>
      mkFetched (allArticles st ++ a :: value) (S (successCount st))
                (failCount st)
  | _ => mkFetched (allArticles st) (successCount st) (S (failCount st))
  end.

Definition collect (results : list (option (list Article))) : Fetched :=
  fold_left collectStep results (mkFetched [] 0 0).

(** The sources of the optimised script, by category. *)
Definition cat_general : jsstring := [0x7efc; 0x5408; 0x8d44; 0x8baf]%N.
Definition cat_metal : jsstring := [0x91d1; 0x5c5e; 0x6750; 0x6599]%N.
Definition cat_nonmetal : jsstring :=
  [0x975e; 0x91d1; 0x5c5e; 0x6750; 0x6599]%N.
Definition cat_fastener : jsstring := [0x7d27; 0x56fa; 0x4ef6]%N.
Definition cat_compliance : jsstring := [0x73af; 0x4fdd; 0x5408; 0x89c4]%N.

Definition RSS_SOURCES_optimized : list (jsstring * list jsstring) :=
  [ (cat_general,
     map str ["https://techcrunch.com/feed/";
              "https://www.theverge.com/rss/index.xml";
              "https://feeds.arstechnica.com/arstechnica/technology-lab";
              "https://www.wired.com/feed/rss";
              "https://venturebeat.com/feed/"]%string);
    (cat_metal,
     map str ["https://chipsandcheese.com/feed/";
              "https://www.tomshardware.com/feeds/all";
              "https://www.eetimes.com/feed/"]%string);
    (cat_nonmetal,
     map str ["https://www.technologyreview.com/feed/";
              "https://www.carbon-fiber.eu/feed/";
              "https://www.automotiveworld.com/feed/"]%string);
    (cat_corrosion,
     map str ["https://www.european-coatings.com/rss";
              "https://www.automotiveworld.com/feed/"]%string);
    (cat_health,
     map str ["https://www.sustainablebrands.com/rss";
              "https://www.automotiveworld.com/feed/"]%string);
    (cat_fastener,
     map str ["https://www.automotiveworld.com/feed/"]%string);
    (cat_compliance,
     map str ["https://www.sustainablebrands.com/rss";
              "https://www.automotiveworld.com/feed/"]%string) ].

(** The sources of the keyword script. *)
Definition RSS_SOURCES_keyword : list jsstring :=
  map str ["https://www.automotiveworld.com/feed/";
           "https://www.carbon-fiber.eu/feed/";
           "https://www.european-coatings.com/rss";
           "https://www.sustainablebrands.com/rss";
           "https://www.technologyreview.com/feed/";
           "https://www.sae.org/news/rss";
           "https://www.compositesworld.com/rss";
           "https://www.plasticstoday.com/rss.xml"]%string.

(** The requests of a script whose sources are grouped by category, in
    the order in which their results are collected. *)
Definition requestsOf (sources : list (jsstring * list jsstring))
    : list (jsstring * jsstring) :=
  flat_map (λ entry, map (λ url, (entry.1, url)) entry.2) sources.

Section Runs.

Variable parseDate : jsstring → option Z.
Variable now : Z.

(** What the feed at a URL yields during the run, [None] when the
    request or the parsing fails; every request of the URL in the run
    yields the same. *)
Variable parseURL : jsstring → option (list Item).

(** [fetchAllRSS] of the optimised script ([fetchRSS] never rejects), and
    the nested loops of the first script, which count in the same way. *)
Definition fetchAllRSS_sources (sources : list (jsstring * list jsstring))
    : Fetched :=
  collect (map (λ req, Some (fetchRSS_optimized parseDate now
                               (parseURL req.2) req.1))
               (requestsOf sources)).

Definition fetchAllRSS_keyword (sources : list jsstring) : Fetched :=
  collect (map (λ url, Some (fetchRSS_keyword parseDate now (parseURL url)))
               sources).

(** The optimised script, from the feeds to the snapshot. *)
Definition run_optimized (sources : list (jsstring * list jsstring))
    (env : Env) (net : nat → nat → Outcome) : Snapshot :=
  main_optimized (map fst sources) env net
    (allArticles (fetchAllRSS_sources sources)).

(** The keyword script, from the feeds to the snapshot. *)
Definition run_keyword (toLowerCase : jsstring → jsstring) (env : Env)
    (net : nat → nat → Outcome) : Snapshot :=
  main_new toLowerCase env net
    (allArticles (fetchAllRSS_keyword RSS_SOURCES_keyword)).

End Runs.

(** ** Batches of the summariser *)

Definition BATCH_SIZE : nat := 3.

(** The loop [for (i = 0; i < articles.length; i += BATCH_SIZE)] of
    [generateSummariesBatch]: the batches [articles.slice(i, i + 3)] and
    the number of one-second pauses, which follow a batch when
    [i + BATCH_SIZE < articles.length]. [fuel] bounds the number of
    turns. *)
Fixpoint batchLoop {A} (fuel i : nat) (articles : list A)
    : list (list A) * nat :=
  match fuel with
  | O => ([], O)
  | S fuel' =>
      if (i <? length articles)%nat then
        let batch := take BATCH_SIZE (drop i articles) in
        let rest := batchLoop fuel' (i + BATCH_SIZE) articles in
        (batch :: rest.1,
         if (i + BATCH_SIZE <? length articles)%nat then S rest.2 else rest.2)
      else ([], O)
  end.

Definition batchesOf {A} (articles : list A) : list (list A) * nat :=
  batchLoop (S (length articles)) 0 articles.

(** ** The key of the Qwen provider *)

(** [apiKey.trim().replace(/[\r\n\t]/g, '')] *)
Definition cleanApiKey (apiKey : jsstring) : jsstring :=
  filter (λ c, c ≠ 13%N ∧ c ≠ 10%N ∧ c ≠ 9%N) (trim apiKey).


(** ** Predicates on strings, for the statements *)

(** A ['<'] with a ['>'] somewhere after it: what the pattern of
    [stripHtml] matches. *)
Fixpoint containsTag (s : jsstring) : bool :=
  match s with
  | [] => false
  | c :: s' =>
      ((c =? 60)%N && existsb (λ d, (d =? 62)%N) s') || containsTag s'
  end.

(** No white space at either end. *)
Definition trimmedb (s : jsstring) : bool :=
  match head s, last s with
  | Some c, Some d => negb (isWhiteSpace c) && negb (isWhiteSpace d)
  | _, _ => true
  end.

(** ** Definitions for the properties of the rest of the scripts *)

(** The fields that every edition of [fetchRSS] fills in the same way. *)
Definition normalized (a : Article) : Prop :=
  (length (description a) ≤ 500)%nat
  ∧ containsTag (description a) = false
  ∧ trimmedb (title a) = true
  ∧ trimmedb (link a) = true
  ∧ relevanceScore a = None ∧ finalScore a = None.

(** A feed gives no article at all (the request failed, or the date of
    one item cannot be read), or one article per item, in the order of
    the items. *)
Definition feedAllOrNothing (parseDate : jsstring → option Z) (now : Z)
    (fetch : option (list Item) → list Article) : Prop :=
  fetch None = []
  ∧ ∀ items,
      (Exists (λ item, itemDate parseDate now item = None) items →
       fetch (Some items) = [])
      ∧ (Forall (λ item, is_Some (itemDate parseDate now item)) items →
         map title (fetch (Some items)) = map itemTitle items
         ∧ map link (fetch (Some items)) = map itemLink items
         ∧ map (λ a, Some (date a)) (fetch (Some items))
           = map (itemDate parseDate now) items).

(** A settled request that counts as a success. *)
Definition fulfilledNonEmpty (result : option (list Article)) : bool :=
  match result with
  | Some (_ :: _) => true
  | _ => false
  end.

(** Every request of category [c] asks for a feed that an earlier
    request asks for already. *)
Definition shadowed (sources : list (jsstring * list jsstring))
    (c : jsstring) : bool :=
  forallb (λ i, match requestsOf sources !! i with
                | Some (c', u) =>
                    if bool_decide (c' = c)
                    then bool_decide (u ∈ map snd (take i (requestsOf sources)))
                    else true
                | None => true
                end)
          (seq 0 (length (requestsOf sources))).

(** A feed with one item, whose title and link are the address of the
    feed. *)
Definition parseURL_example (url : jsstring) : option (list Item) :=
  Some [mkItem (Some url) (Some url) None None None None None].


(** The key of the provider that [generateSummary] calls. *)
Definition selectedKey (env : Env) : option jsstring :=
  if decide (AI_PROVIDER env = str "deepseek")
  then DEEPSEEK_API_KEY env
  else DOUBAO_API_KEY env.

(** A DeepSeek key only, and Doubao as the provider chosen by default. *)
Definition env_deepseek_only : Env :=
  mkEnv None None (Some (str "deepseek-key")) None.

(** The time a call spends waiting between its attempts. *)
Definition totalWait (r : Run) : Z := foldr Z.add 0 (delays r).

(** The first script: the loop of [main] fetches the feeds one after
    the other ([fetchRSS] catches its own errors, so every call gives a
    list) and counts them in the same way; nothing is summarised. *)
Definition fetchAllRSS_sequential (parseDate : jsstring → option Z) (now : Z)
    (parseURL : jsstring → option (list Item))
    (sources : list (jsstring * list jsstring)) : Fetched :=
  collect (map (λ req, Some (fetchRSS_sequential parseDate now
                               (parseURL req.2) req.1))
               (requestsOf sources)).

Definition main_sequential (sourceCategories : list jsstring)
    (allArticles : list Article) : Snapshot :=
  let limitedArticles := limitedArticles_recency allArticles in
  mkSnapshot (length limitedArticles) sourceCategories limitedArticles.

Definition run_sequential (parseDate : jsstring → option Z) (now : Z)
    (parseURL : jsstring → option (list Item))
    (sources : list (jsstring * list jsstring)) : Snapshot :=
  main_sequential (map fst sources)
    (allArticles (fetchAllRSS_sequential parseDate now parseURL sources)).

(** What the normalisation gives every article of a snapshot. *)
Definition wellFormedArticle (s : Snapshot) (b : Article) : Prop :=
  (length (description b) ≤ 500)%nat
  ∧ containsTag (description b) = false
  ∧ trimmedb (title b) = true
  ∧ trimmedb (link b) = true
  ∧ category b ∈ categories s.

(** * Properties *)

(** ** Deduplication *)

Lemma dedup_fold l : ∀ acc seen,
  (fold_left dedupStep l (acc, seen)).1 = acc ++ dedupFrom seen l.
Proof.
  induction l as [|a l IH]; intros acc seen; simpl.
  - by rewrite app_nil_r.
  - unfold dedupStep at 2; simpl. destruct (decide (title a ∈ seen)).
    + apply IH.
    + rewrite IH. by rewrite <- app_assoc.
Qed.

Lemma dedup_dedupFrom l : dedup l = dedupFrom ∅ l.
Proof. unfold dedup. by rewrite dedup_fold. Qed.

Lemma dedupFrom_length seen l : (length (dedupFrom seen l) ≤ length l)%nat.
Proof.
  revert seen; induction l as [|a l IH]; intros seen; simpl; [lia|].
  destruct (decide _); simpl; [specialize (IH seen)|specialize (IH ({[title a]} ∪ seen))]; lia.
Qed.

Lemma dedupFrom_sublist seen l : dedupFrom seen l `sublist_of` l.
Proof.
  revert seen; induction l as [|a l IH]; intros seen; simpl; [constructor|].
  destruct (decide _); [apply sublist_cons | apply sublist_skip]; apply IH.
Qed.

Lemma dedupFrom_fresh seen l x :
  x ∈ dedupFrom seen l → title x ∉ seen.
Proof.
  revert seen; induction l as [|a l IH]; intros seen; simpl; [by intros ?%elem_of_nil|].
  destruct (decide _) as [?|Hn]; [apply IH|].
  intros [->|Hx]%elem_of_cons; [done|].
  apply IH in Hx. set_solver.
Qed.

Lemma dedupFrom_NoDup seen l : NoDup (map title (dedupFrom seen l)).
Proof.
  revert seen; induction l as [|a l IH]; intros seen; simpl; [constructor|].
  destruct (decide _) as [?|Hn]; [apply IH|].
  simpl. constructor; [|apply IH].
  intros (x & Hx1 & Hx2)%list_elem_of_fmap.
  apply dedupFrom_fresh in Hx2. set_solver.
Qed.

Lemma dedupFrom_id seen l :
  NoDup (map title l) → (∀ x, x ∈ l → title x ∉ seen) → dedupFrom seen l = l.
Proof.
  revert seen; induction l as [|a l IH]; intros seen Hnd Hs; simpl; [done|].
  inversion Hnd as [|? ? Hna Hnd']; subst.
  destruct (decide _) as [Hin|Hn].
  - exfalso. eapply Hs; [left|done].
  - f_equal. apply IH; [done|].
    intros x Hx. specialize (Hs x (list_elem_of_further _ _ _ Hx)).
    assert (title x ≠ title a).
    { intros E. apply Hna. rewrite <- E. by apply list_elem_of_fmap_2. }
    apply not_elem_of_union. split; [by apply not_elem_of_singleton|done].
Qed.

Lemma dedupFrom_first seen l1 a l2 :
  title a ∉ seen → title a ∉ map title l1 → a ∈ dedupFrom seen (l1 ++ a :: l2).
Proof.
  revert seen; induction l1 as [|b l1 IH]; intros seen Hs Hn; simpl.
  - rewrite decide_False by done. left.
  - apply not_elem_of_cons in Hn as [Hab Hn].
    destruct (decide _); [by apply IH|].
    right. apply IH; [|done].
    apply not_elem_of_union. split; [by apply not_elem_of_singleton|done].
Qed.

Lemma dedupFrom_is_first seen l x :
  x ∈ dedupFrom seen l →
  ∃ l1 l2, l = l1 ++ x :: l2 ∧ title x ∉ map title l1.
Proof.
  revert seen; induction l as [|a l IH]; intros seen; simpl; [by intros ?%elem_of_nil|].
  destruct (decide _) as [Hin|Hn].
  - intros Hx. pose proof (dedupFrom_fresh _ _ _ Hx) as Hf.
    destruct (IH _ Hx) as (l1 & l2 & -> & Hl1).
    exists (a :: l1), l2. split; [done|].
    simpl. apply not_elem_of_cons. split; [congruence|done].
  - intros [->|Hx]%elem_of_cons.
    + exists [], l. split; [done|]. simpl. apply not_elem_of_nil.
    + pose proof (dedupFrom_fresh _ _ _ Hx) as Hf.
      destruct (IH _ Hx) as (l1 & l2 & -> & Hl1).
      exists (a :: l1), l2. split; [done|].
      simpl. apply not_elem_of_cons. split; [set_solver|done].
Qed.

(** C8: the deduplication is idempotent; its result is no longer
    than its input and holds no two articles with the same title; it is
    the input with some articles left out, in the order of the input; and
    an article is kept exactly when no article before it has its title. *)
Theorem C8_dedup_idempotent (l : list Article) :
  dedup (dedup l) = dedup l
  ∧ (length (dedup l) ≤ length l)%nat
  ∧ NoDup (map title (dedup l))
  ∧ dedup l `sublist_of` l
  ∧ (∀ l1 a l2, l = l1 ++ a :: l2 → title a ∉ map title l1 → a ∈ dedup l)
  ∧ (∀ x, x ∈ dedup l → ∃ l1 l2, l = l1 ++ x :: l2 ∧ title x ∉ map title l1).
Proof.
  rewrite !dedup_dedupFrom. repeat split.
  - apply dedupFrom_id; [apply dedupFrom_NoDup | set_solver].
  - apply dedupFrom_length.
  - apply dedupFrom_NoDup.
  - apply dedupFrom_sublist.
  - intros l1 a l2 -> Hn. apply dedupFrom_first; [set_solver|done].
  - apply dedupFrom_is_first.
Qed.

(** ** Relevance score *)


Section ScoringFacts.
Variable toLowerCase : jsstring → jsstring.
Variable cfg : Config.

Lemma lookupCategory_elem c kws :
  lookupCategory cfg c = Some kws → (c, kws) ∈ cfg.
Proof.
  induction cfg as [|[k v] rest IH]; simpl; [done|].
  destruct (decide (k = c)) as [->|].
  - intros [= ->]. left.
  - intros H. right. by apply IH.
Qed.

Lemma countInclude_fold article ws : ∀ acc,
  Forall (λ w, toLowerCase w = w) ws →
  fold_left (countInclude toLowerCase article) ws acc
  = acc + foldr (λ w P, keywordPoints (searchTextOf toLowerCase article)
                          (toLowerCase (title article)) w + P) 0 ws.
Proof.
  induction ws as [|w ws IH]; intros acc Hf; simpl; [lia|].
  inversion Hf as [|? ? Hw Hws]; subst.
  rewrite IH by done. unfold countInclude, keywordPoints. rewrite Hw.
  destruct (includes _ w); [destruct (includes _ w)|]; lia.
Qed.

Lemma countInclude_nonneg article ws : ∀ acc,
  0 ≤ acc → 0 ≤ fold_left (countInclude toLowerCase article) ws acc.
Proof.
  induction ws as [|w ws IH]; intros acc Hacc; simpl; [done|].
  apply IH. unfold countInclude.
  destruct (includes _ _); [destruct (includes _ _)|]; lia.
Qed.

Lemma calculateRelevanceScore_range article category :
  0 ≤ calculateRelevanceScore toLowerCase cfg article category ≤ 100.
Proof.
  unfold calculateRelevanceScore.
  destruct (lookupCategory cfg category) as [kws|]; [|lia].
  destruct (existsb _ _); [lia|].
  pose proof (countInclude_nonneg article (include kws) 0). lia.
Qed.

(** The score is a multiple of 10. *)
Lemma calculateRelevanceScore_tens article category :
  ∃ k, calculateRelevanceScore toLowerCase cfg article category = 10 * k.
Proof.
  unfold calculateRelevanceScore.
  destruct (lookupCategory cfg category) as [kws|]; [|by exists 0].
  destruct (existsb _ _); [by exists 0|].
  set (m := fold_left _ _ _).
  destruct (Z.le_ge_cases 100 (m * 10)).
  - exists 10. lia.
  - exists m. lia.
Qed.

End ScoringFacts.

(** C1: for a configured category, the relevance score is the
    reference score: 0 when the lower-cased text of title, space and
    description contains an exclude keyword; otherwise the least of 100
    and 10 times the points, one for each include keyword found in that
    text and two more when the keyword is also in the lower-cased title.
    The score lies between 0 and 100, and it is 0 as soon as an exclude
    keyword occurs. The code lower-cases every keyword before it looks
    for it; the keywords are taken to be in lower case already, as all
    the configured ones are. *)
Theorem C1_relevance_score_reference
    (toLowerCase : jsstring → jsstring) (cfg : Config)
    (article : Article) (category : jsstring) (keywords : Keywords) :
  lowerCaseKeywords toLowerCase cfg →
  lookupCategory cfg category = Some keywords →
  calculateRelevanceScore toLowerCase cfg article category
    = relevance_spec toLowerCase keywords article
  ∧ 0 ≤ calculateRelevanceScore toLowerCase cfg article category ≤ 100
  ∧ (Exists (λ w, includes (toLowerCase (title article ++ str " "
                                          ++ description article)) w = true)
            (exclude keywords) →
     calculateRelevanceScore toLowerCase cfg article category = 0).
Proof.
  intros Hlow Hc.
  assert (Hk : Forall (λ w, toLowerCase w = w) (include keywords ++ exclude keywords)).
  { apply lookupCategory_elem in Hc.
    unfold lowerCaseKeywords in Hlow. rewrite Forall_forall in Hlow.
    apply (Hlow _ Hc). }
  apply Forall_app in Hk as [Hinc Hexc].
  assert (Hex : existsb (λ w, includes (searchTextOf toLowerCase article) (toLowerCase w))
                  (exclude keywords)
                = existsb (includes (searchTextOf toLowerCase article)) (exclude keywords)).
  { clear Hc. induction Hexc as [|w ws Hw _ IH]; simpl; [done|]. by rewrite Hw, IH. }
  split; [|split].
  - unfold calculateRelevanceScore, relevance_spec. rewrite Hc, Hex.
    change (toLowerCase (title article ++ str " " ++ description article))
      with (searchTextOf toLowerCase article).
    destruct (existsb (includes _) _); [done|].
    rewrite countInclude_fold by done. f_equal. lia.
  - apply calculateRelevanceScore_range.
  - intros Hv. unfold calculateRelevanceScore. rewrite Hc, Hex.
    change (toLowerCase (title article ++ str " " ++ description article))
      with (searchTextOf toLowerCase article) in Hv.
    destruct (existsb (includes _) _) eqn:E; [done|].
    exfalso. apply Exists_exists in Hv as (w & Hw & Hi).
    assert (existsb (includes (searchTextOf toLowerCase article)) (exclude keywords) = true).
    { apply existsb_exists. exists w. split; [by apply list_elem_of_In|done]. }
    congruence.
Qed.

Lemma CATEGORY_KEYWORDS_lowerCase : lowerCaseKeywords asciiLower CATEGORY_KEYWORDS.
Proof. unfold lowerCaseKeywords. refine (bool_decide_unpack _ _). vm_compute. exact I. Qed.

Lemma C1_relevance_score_reference_witness :
  lowerCaseKeywords asciiLower CATEGORY_KEYWORDS
  ∧ lookupCategory CATEGORY_KEYWORDS cat_materials
    = head (map snd CATEGORY_KEYWORDS)
  ∧ calculateRelevanceScore asciiLower CATEGORY_KEYWORDS article_aluminum
      cat_materials = 60.
Proof.
  split; [exact CATEGORY_KEYWORDS_lowerCase|]. split; [reflexivity|].
  pose proof (C1_relevance_score_reference asciiLower CATEGORY_KEYWORDS
                article_aluminum cat_materials _
                CATEGORY_KEYWORDS_lowerCase eq_refl) as [H _].
  rewrite H. reflexivity.
Defined.

(** ** Category assignment *)

Section AssignFacts.
Variable toLowerCase : jsstring → jsstring.
Variable cfg : Config.
Variable article : Article.

Local Abbreviation score := (calculateRelevanceScore toLowerCase cfg article).

Lemma assign_fold cs : ∀ bc bs,
  let r := fold_left (assignStep toLowerCase cfg article) cs (bc, bs) in
  (∀ c, c ∈ cs → score c ≤ r.2)
  ∧ ((r = (bc, bs))
     ∨ (∃ i c, cs !! i = Some c ∧ r = (Some c, score c) ∧ bs < score c
               ∧ ∀ j c', (j < i)%nat → cs !! j = Some c' → score c' < score c)).
Proof.
  induction cs as [|c0 cs IH]; intros bc bs; simpl.
  - split; [by intros c ?%elem_of_nil | by left].
  - unfold assignStep at 2 4 6; simpl.
    destruct (Z.ltb_spec bs (score c0)) as [Hlt|Hge].
    + destruct (IH (Some c0) (score c0)) as [Hmax Hcase]. split.
      * intros c [->|Hc]%elem_of_cons; [|by apply Hmax].
        destruct Hcase as [->|(i & c & _ & -> & Hc & _)]; simpl; lia.
      * right. destruct Hcase as [->|(i & c & Hi & -> & Hc & Hbefore)].
        -- exists 0%nat, c0. repeat split; [done|]. intros; lia.
        -- exists (S i), c. repeat split; [done|lia|].
           intros [|j] c' Hj; simpl; [intros [= <-]; lia|].
           apply Hbefore. lia.
    + destruct (IH bc bs) as [Hmax Hcase]. split.
      * intros c [->|Hc]%elem_of_cons; [|by apply Hmax].
        destruct Hcase as [->|(i & c & _ & -> & Hc & _)]; simpl; lia.
      * destruct Hcase as [->|(i & c & Hi & -> & Hc & Hbefore)]; [by left|].
        right. exists (S i), c. repeat split; [done|done|].
        intros [|j] c' Hj; simpl; [intros [= <-]; lia|].
        apply Hbefore. lia.
Qed.

Lemma assignCategory_cases :
  (∀ c, c ∈ keys cfg → score c ≤ (assignCategory toLowerCase cfg article).2)
  ∧ (assignCategory toLowerCase cfg article = (None, 0)
     ∨ ∃ i c, keys cfg !! i = Some c
              ∧ assignCategory toLowerCase cfg article = (Some c, score c)
              ∧ 0 < score c
              ∧ ∀ j c', (j < i)%nat → keys cfg !! j = Some c' → score c' < score c).
Proof. apply (assign_fold (keys cfg) None 0). Qed.

End AssignFacts.

(** ** Sorting and quota selection *)


Section SortFacts.
Context {A : Type} (cmp : A → A → Q).

Lemma sortInsert_Permutation x l : sortInsert cmp x l ≡ₚ x :: l.
Proof.
  induction l as [|y l IH]; simpl; [done|].
  destruct (Qle_bool _ _); [done|].
  rewrite IH. apply Permutation_swap.
Qed.

Lemma jsSort_Permutation l : jsSort cmp l ≡ₚ l.
Proof.
  induction l as [|x l IH]; simpl; [done|].
  rewrite sortInsert_Permutation. by rewrite IH.
Qed.

Lemma jsSort_length l : length (jsSort cmp l) = length l.
Proof. by rewrite jsSort_Permutation. Qed.

Lemma jsSort_elem x l : x ∈ jsSort cmp l ↔ x ∈ l.
Proof. by rewrite jsSort_Permutation. Qed.

(** When the comparator orders by a key, the result is sorted by the
    key, in descending order. *)
Variable key : A → Q.
Variable ok : A → Prop.
Hypothesis cmp_key : ∀ x y, ok x → ok y →
  (Qle_bool (cmp x y) 0 = true ↔ (key y <= key x)%Q).

Lemma sortInsert_sorted x l :
  ok x → Forall ok l →
  StronglySorted (λ a b, (key b <= key a)%Q) l →
  StronglySorted (λ a b, (key b <= key a)%Q) (sortInsert cmp x l).
Proof.
  intros Hx Hl Hs. induction Hs as [|y l Hs IH Hy]; simpl.
  - repeat constructor.
  - inversion Hl as [|? ? Hoy Hol]; subst.
    destruct (Qle_bool (cmp x y) 0) eqn:E.
    + apply cmp_key in E; [|done..].
      constructor; [by constructor|].
      constructor; [done|].
      eapply Forall_impl; [exact Hy|]. intros z Hz; simpl in *. lra.
    + constructor; [by apply IH|].
      rewrite sortInsert_Permutation. constructor; [|done].
      destruct (Qlt_le_dec (key x) (key y)) as [Hlt|Hle]; [lra|].
      apply cmp_key in Hle; [congruence|done..].
Qed.

Lemma jsSort_sorted l :
  Forall ok l → StronglySorted (λ a b, (key b <= key a)%Q) (jsSort cmp l).
Proof.
  induction 1 as [|x l Hx Hl IH]; simpl; [constructor|].
  apply sortInsert_sorted; [done| |done].
  by rewrite jsSort_Permutation.
Qed.
End SortFacts.

Lemma slice0_length {A} (n : Z) (l : list A) :
  0 ≤ n → Z.of_nat (length (slice0 n l)) ≤ n.
Proof.
  intros Hn. unfold slice0. destruct (Z.ltb_spec n 0); [lia|].
  rewrite length_take. lia.
Qed.

Lemma slice0_sublist {A} (n : Z) (l : list A) : slice0 n l `sublist_of` l.
Proof. unfold slice0. destruct (n <? 0); apply sublist_take. Qed.

Lemma take_min_quota {A} (n : nat) (l : list A) :
  take (Nat.min n (length l)) l = take n l.
Proof.
  destruct (Nat.le_ge_cases n (length l)).
  - by rewrite Nat.min_l.
  - rewrite Nat.min_r by done. by rewrite !take_ge by lia.
Qed.

Lemma usedAfter_cons used g groups :
  usedAfter used (g :: groups)
  = usedAfter (used ∪ list_to_set (map link g)) groups.
Proof.
  unfold usedAfter; simpl.
  by rewrite map_app, list_to_set_app_L, (assoc_L (∪)).
Qed.

Lemma phase1_fold arts cs : ∀ lim used,
  fold_left (quotaStep arts) cs (lim, used)
  = (lim ++ concat (quotaGroups arts used cs),
     usedAfter used (quotaGroups arts used cs)).
Proof.
  induction cs as [|c cs IH]; intros lim used.
  - unfold usedAfter; simpl. by rewrite app_nil_r, (right_id_L ∅ (∪)).
  - cbn [fold_left quotaGroups]. unfold quotaStep at 2. cbn [fst snd].
    rewrite take_min_quota, IH, usedAfter_cons. cbn [concat].
    by rewrite <- app_assoc.
Qed.

Lemma phase1_eq cfg arts :
  phase1 cfg arts
  = (concat (quotaGroups arts ∅ (keys cfg)),
     usedAfter ∅ (quotaGroups arts ∅ (keys cfg))).
Proof. unfold phase1. by rewrite phase1_fold. Qed.

Lemma quotaGroups_length arts cs : ∀ used,
  length (quotaGroups arts used cs) = length cs.
Proof. induction cs as [|c cs IH]; intros used; simpl; [done|]. by rewrite IH. Qed.

Lemma quotaGroups_concat_length arts cs : ∀ used,
  (length (concat (quotaGroups arts used cs)) ≤ MIN_PER_CATEGORY * length cs)%nat.
Proof.
  induction cs as [|c cs IH]; intros used; simpl; [lia|].
  rewrite length_app, length_take.
  specialize (IH (used ∪ list_to_set
    (map link (take MIN_PER_CATEGORY (categoryArticlesOf arts used c))))).
  unfold MIN_PER_CATEGORY in *. lia.
Qed.

Lemma categoryArticlesOf_elem arts used c a :
  a ∈ categoryArticlesOf arts used c ↔ a ∈ arts ∧ category a = c ∧ link a ∉ used.
Proof.
  unfold categoryArticlesOf. rewrite jsSort_elem, list_elem_of_filter. tauto.
Qed.

Lemma quotaGroups_elem arts cs : ∀ used a,
  a ∈ concat (quotaGroups arts used cs) → a ∈ arts.
Proof.
  induction cs as [|c cs IH]; intros used a; simpl; [by intros ?%elem_of_nil|].
  intros [Ha|Ha]%elem_of_app; [|by eapply IH].
  apply elem_of_take in Ha as (i & Ha & _).
  apply list_elem_of_lookup_2 in Ha. by apply categoryArticlesOf_elem in Ha as [? _].
Qed.

Lemma phase2_elem arts st a : a ∈ phase2 arts st → a ∈ arts.
Proof.
  unfold phase2. intros Ha.
  eapply elem_of_submseteq in Ha; [|apply sublist_submseteq, slice0_sublist].
  by apply list_elem_of_filter in Ha as [_ ?].
Qed.

Lemma selectQuota_elem cfg arts a : a ∈ selectQuota cfg arts → a ∈ arts.
Proof.
  unfold selectQuota. rewrite phase1_eq; simpl.
  intros [Ha|Ha]%elem_of_app; [by eapply quotaGroups_elem | by eapply phase2_elem].
Qed.

(** The cap, for a configuration whose minimum quotas fit under it. *)
Lemma selectQuota_length cfg arts :
  (MIN_PER_CATEGORY * length cfg ≤ 50)%nat →
  (length (selectQuota cfg arts) ≤ 50)%nat.
Proof.
  intros Hcfg. unfold selectQuota. rewrite length_app.
  pose proof (quotaGroups_concat_length arts (keys cfg) ∅) as H1.
  unfold keys in H1 at 2. rewrite length_map in H1.
  rewrite phase1_eq in *; simpl in *.
  pose proof (slice0_length
    (TOTAL_LIMIT - Z.of_nat (length (concat (quotaGroups arts ∅ (keys cfg)))))
    (filter (λ a, link a ∉ usedAfter ∅ (quotaGroups arts ∅ (keys cfg))) arts)) as H2.
  unfold phase2; simpl. unfold TOTAL_LIMIT in *. lia.
Qed.

(** ** From the snapshot back to the fetched articles *)

Lemma generateSummariesBatch_new_elem env net l b :
  b ∈ generateSummariesBatch_new env net l →
  ∃ b0 s, b0 ∈ l ∧ b = set_summary s b0.
Proof.
  unfold generateSummariesBatch_new. destruct (unset _).
  - intros (b0 & -> & Hb0)%list_elem_of_fmap. eauto.
  - intros (i & b0 & -> & Hi)%elem_of_lookup_imap.
    apply list_elem_of_lookup_2 in Hi. eauto.
Qed.

Lemma generateSummariesBatch_new_length env net l :
  length (generateSummariesBatch_new env net l) = length l.
Proof.
  unfold generateSummariesBatch_new. destruct (unset _).
  - apply length_map.
  - apply length_imap.
Qed.

Lemma scoreAll_elem l b :
  b ∈ scoreAll l → ∃ b0 f, b0 ∈ l ∧ b = set_finalScore f b0.
Proof.
  unfold scoreAll. destruct l as [|a l]; [by intros ?%elem_of_nil|].
  change (Math_max (map date (a :: l))) with (Some (fold_left Z.max (map date l) (date a))).
  change (Math_min (map date (a :: l))) with (Some (fold_left Z.min (map date l) (date a))).
  cbv beta iota.
  intros (b0 & -> & Hb0)%list_elem_of_fmap. eauto.
Qed.

Section CategorizeFacts.
Variable toLowerCase : jsstring → jsstring.
Variable cfg : Config.

Lemma assignCategory_nonneg a : 0 ≤ (assignCategory toLowerCase cfg a).2.
Proof.
  destruct (assignCategory_cases toLowerCase cfg a) as [_ [->|(i & c & _ & -> & ? & _)]];
    simpl; lia.
Qed.

Lemma categorizeOne_elem a b :
  b ∈ categorizeOne toLowerCase cfg a →
  ∃ c, assignCategory toLowerCase cfg a
       = (Some c, calculateRelevanceScore toLowerCase cfg a c)
       ∧ c ≠ [] ∧ c ∈ keys cfg
       ∧ 0 < calculateRelevanceScore toLowerCase cfg a c
       ∧ b = set_relevanceScore (calculateRelevanceScore toLowerCase cfg a c)
               (set_category c a).
Proof.
  unfold categorizeOne.
  destruct (assignCategory_cases toLowerCase cfg a)
    as [_ [->|(i & c & Hi & -> & Hpos & _)]]; simpl.
  - by intros ?%elem_of_nil.
  - destruct c as [|c0 c']; simpl; [by intros ?%elem_of_nil|].
    intros ->%list_elem_of_singleton. eexists. repeat split; try done.
    by apply list_elem_of_lookup_2 in Hi.
Qed.

Lemma categorize_elem l b :
  b ∈ categorize toLowerCase cfg l →
  ∃ a, a ∈ l ∧ b ∈ categorizeOne toLowerCase cfg a.
Proof.
  unfold categorize. rewrite list_elem_of_In, in_flat_map.
  intros (a & Ha & Hb). exists a. by rewrite !list_elem_of_In.
Qed.

(** Every article of the snapshot is a fetched article that survived
    the deduplication and got its category with a positive score. *)
Lemma main_blended_elem env net all b :
  b ∈ articles (main_blended toLowerCase cfg env net all) →
  ∃ a c, a ∈ dedup all
         ∧ assignCategory toLowerCase cfg a
           = (Some c, calculateRelevanceScore toLowerCase cfg a c)
         ∧ c ≠ [] ∧ c ∈ keys cfg
         ∧ 0 < calculateRelevanceScore toLowerCase cfg a c
         ∧ title b = title a ∧ link b = link a ∧ category b = c
         ∧ relevanceScore b
           = Some (calculateRelevanceScore toLowerCase cfg a c).
Proof.
  cbn [articles main_blended].
  intros (b1 & s & Hb1 & ->)%generateSummariesBatch_new_elem.
  unfold limitedArticles_blended in Hb1.
  apply selectQuota_elem, jsSort_elem in Hb1.
  apply scoreAll_elem in Hb1 as (b2 & f & Hb2 & ->).
  apply categorize_elem in Hb2 as (a & Ha & Hb2).
  apply categorizeOne_elem in Hb2 as (c & Hr & Hne & Hk & Hpos & ->).
  exists a, c. by repeat split.
Qed.

End CategorizeFacts.

(** C2: [assignCategory] returns the best score over the configured
    categories, with the first category (in configuration order) that
    reaches it, a later one replacing the current best only by a strictly
    greater score; an article whose best score is 0 gets no category and is
    dropped, so that every article of the snapshot has a positive best
    score and carries the category that [assignCategory] chose. The
    category names are taken to be non-empty, as the configured ones are
    (an empty name would be falsy in [if (result.category)]). *)
Theorem C2_category_assignment
    (toLowerCase : jsstring → jsstring) (cfg : Config) (article : Article) :
  Forall (λ c, c ≠ []) (keys cfg) →
  0 ≤ (assignCategory toLowerCase cfg article).2
  ∧ (∀ c, c ∈ keys cfg →
       calculateRelevanceScore toLowerCase cfg article c
       ≤ (assignCategory toLowerCase cfg article).2)
  ∧ ((assignCategory toLowerCase cfg article).2 = 0 →
       (assignCategory toLowerCase cfg article).1 = None
       ∧ categorizeOne toLowerCase cfg article = [])
  ∧ (0 < (assignCategory toLowerCase cfg article).2 →
       ∃ i c, keys cfg !! i = Some c
         ∧ assignCategory toLowerCase cfg article
           = (Some c, calculateRelevanceScore toLowerCase cfg article c)
         ∧ (∀ j c', (j < i)%nat → keys cfg !! j = Some c' →
              calculateRelevanceScore toLowerCase cfg article c'
              < calculateRelevanceScore toLowerCase cfg article c)
         ∧ categorizeOne toLowerCase cfg article
           = [set_relevanceScore
                (calculateRelevanceScore toLowerCase cfg article c)
                (set_category c article)])
  ∧ (∀ env net all b,
       b ∈ articles (main_blended toLowerCase cfg env net all) →
       ∃ a, a ∈ dedup all ∧ title b = title a
         ∧ 0 < (assignCategory toLowerCase cfg a).2
         ∧ (assignCategory toLowerCase cfg a).1 = Some (category b)).
Proof.
  intros Hne.
  destruct (assignCategory_cases toLowerCase cfg article) as [Hmax Hcase].
  split; [apply assignCategory_nonneg|].
  split; [done|].
  split; [|split].
  - intros H0. destruct Hcase as [Hr|(i & c & _ & Hr & Hpos & _)].
    + unfold categorizeOne. by rewrite Hr.
    + rewrite Hr in H0; simpl in H0. lia.
  - intros Hpos. destruct Hcase as [Hr|(i & c & Hi & Hr & _ & Hbefore)].
    + rewrite Hr in Hpos; simpl in Hpos. lia.
    + exists i, c. repeat split; [done..|].
      unfold categorizeOne. rewrite Hr; simpl.
      rewrite Forall_forall in Hne.
      specialize (Hne c (list_elem_of_lookup_2 _ _ _ Hi)).
      by destruct c.
  - intros env net all b Hb.
    apply main_blended_elem in Hb
      as (a & c & Ha & Hr & _ & _ & Hpos & Ht & _ & Hc & _).
    exists a. rewrite Hr; simpl. by subst c.
Qed.

Lemma C2_category_assignment_witness :
  Forall (λ c, c ≠ []) (keys CATEGORY_KEYWORDS)
  ∧ assignCategory asciiLower CATEGORY_KEYWORDS article_aluminum
    = (Some cat_materials, 60)
  ∧ calculateRelevanceScore asciiLower CATEGORY_KEYWORDS article_aluminum
      cat_corrosion
    ≤ (assignCategory asciiLower CATEGORY_KEYWORDS article_aluminum).2.
Proof.
  assert (H : Forall (λ c : jsstring, c ≠ []) (keys CATEGORY_KEYWORDS))
    by (repeat constructor; discriminate).
  split; [exact H|]. split; [reflexivity|].
  apply (C2_category_assignment asciiLower CATEGORY_KEYWORDS article_aluminum H).
  right; left.
Defined.

(** C9: every article that survives the categorisation carries a
    relevance score in 10, 20, ..., 100 and a non-empty category, and so
    does every article of the snapshot. *)
Theorem C9_retained_relevance
    (toLowerCase : jsstring → jsstring) (cfg : Config) (env : Env)
    (net : nat → nat → Outcome) (all : list Article) :
  Forall (λ b, category b ≠ []
               ∧ ∃ k, 1 ≤ k ≤ 10 ∧ relevanceScore b = Some (10 * k))
         (categorizedArticles_of toLowerCase cfg all)
  ∧ Forall (λ b, category b ≠ []
                 ∧ ∃ k, 1 ≤ k ≤ 10 ∧ relevanceScore b = Some (10 * k))
           (articles (main_blended toLowerCase cfg env net all)).
Proof.
  assert (Hk : ∀ a c, 0 < calculateRelevanceScore toLowerCase cfg a c →
                 ∃ k, 1 ≤ k ≤ 10
                      ∧ Some (calculateRelevanceScore toLowerCase cfg a c)
                        = Some (10 * k)).
  { intros a c Hpos.
    destruct (calculateRelevanceScore_tens toLowerCase cfg a c) as [k Hk].
    pose proof (calculateRelevanceScore_range toLowerCase cfg a c).
    exists k. split; [lia|by rewrite Hk]. }
  split; apply Forall_forall; intros b Hb.
  - apply categorize_elem in Hb as (a & _ & Hb).
    apply categorizeOne_elem in Hb as (c & _ & Hne & _ & Hpos & ->).
    split; [done|]. by apply Hk.
  - apply main_blended_elem in Hb
      as (a & c & _ & _ & Hne & _ & Hpos & _ & _ & Hc & Hrel).
    split; [by rewrite Hc|]. rewrite Hrel. by apply Hk.
Qed.

(** ** The cap *)

Lemma limitedArticles_recency_length all :
  (length (limitedArticles_recency all) ≤ 50)%nat.
Proof.
  unfold limitedArticles_recency.
  pose proof (slice0_length 50 (jsSort cmpDate (dedup all))). lia.
Qed.

Lemma main_optimized_length cats env net all :
  (length (articles (main_optimized cats env net all)) ≤ 50)%nat.
Proof.
  cbn [articles main_optimized].
  pose proof (limitedArticles_recency_length all).
  destruct (_ || _).
  - unfold generateSummariesBatch_optimized. by rewrite length_imap.
  - by rewrite length_map.
Qed.

(** C3: the snapshot never holds more than 50 articles, in the
    recency-only edition (the slice after the sort by date) and in the
    blended edition, where phase 1 adds at most 3 articles for each of the
    configured categories and phase 2 at most 50 minus that count. *)
Theorem C3_output_cap :
  (∀ cats env net all,
     (length (articles (main_optimized cats env net all)) ≤ 50)%nat
     ∧ totalArticles (main_optimized cats env net all)
       = length (articles (main_optimized cats env net all)))
  ∧ (∀ toLowerCase env net all,
       (length (articles (main_new toLowerCase env net all)) ≤ 50)%nat
       ∧ totalArticles (main_new toLowerCase env net all)
         = length (articles (main_new toLowerCase env net all)))
  ∧ (∀ arts,
       (length (phase1 CATEGORY_KEYWORDS arts).1
        ≤ 3 * length (keys CATEGORY_KEYWORDS))%nat
       ∧ (length (phase2 arts (phase1 CATEGORY_KEYWORDS arts))
          ≤ 50 - length (phase1 CATEGORY_KEYWORDS arts).1)%nat
       ∧ (length (selectQuota CATEGORY_KEYWORDS arts) ≤ 50)%nat).
Proof.
  split; [|split].
  - intros. split; [apply main_optimized_length|done].
  - intros. split; [|done]. cbn [articles main_new main_blended].
    rewrite generateSummariesBatch_new_length.
    apply selectQuota_length. cbn. lia.
  - intros arts.
    pose proof (quotaGroups_concat_length arts (keys CATEGORY_KEYWORDS) ∅) as H1.
    rewrite phase1_eq; cbn [fst].
    split; [exact H1|]. split.
    + unfold phase2; cbn [fst snd].
      pose proof (slice0_length
        (TOTAL_LIMIT - Z.of_nat (length (concat
           (quotaGroups arts ∅ (keys CATEGORY_KEYWORDS)))))
        (filter (λ a, link a ∉ usedAfter ∅
           (quotaGroups arts ∅ (keys CATEGORY_KEYWORDS))) arts)) as H2.
      assert (H1' : (length (concat
        (quotaGroups arts ∅ (keys CATEGORY_KEYWORDS))) ≤ 9)%nat) by exact H1.
      unfold TOTAL_LIMIT in *. specialize (H2 ltac:(lia)). lia.
    + apply selectQuota_length. cbn. lia.
Qed.

(** ** Summaries of descriptions that are already Chinese *)

(** C7: a description on which the range test [isChinese] succeeds is
    summarised, in both editions and whatever the environment and the
    network do, by its first 150 code units (the whole description when it
    is shorter) followed by ['...'], without any request. *)
Theorem C7_chinese_description_summary
    (env : Env) (net : nat → Outcome) (text : jsstring) :
  isChinese text = true →
  generateSummary env net text
    = mkRun (substring0 150 text ++ str "...") 0 []
  ∧ summarize_new env net text
    = mkRun (substring0 150 text ++ str "...") 0 []
  ∧ length (substring0 150 text) = Nat.min 150 (length text)
  ∧ ((150 ≤ length text)%nat → length (substring0 150 text) = 150%nat).
Proof.
  intros Hc. repeat split.
  - unfold generateSummary. by rewrite Hc.
  - unfold summarize_new, generateSummaryWithQwen. rewrite Hc.
    by destruct (unset _).
  - apply length_take.
  - intros Hl. unfold substring0. rewrite length_take. lia.
Qed.

Lemma C7_chinese_description_summary_witness :
  isChinese text_chinese = true
  ∧ returned (generateSummary env_none (λ _, FetchThrows) text_chinese)
    = text_chinese ++ str "..."
  ∧ fetches (generateSummary env_none (λ _, FetchThrows) text_chinese) = 0%nat.
Proof.
  split; [reflexivity|].
  destruct (C7_chinese_description_summary env_none (λ _, FetchThrows)
              text_chinese eq_refl) as [-> _].
  split; reflexivity.
Defined.

(** ** The blended score *)








(** ** The retry loops *)

Section RetryFacts.
Variable net : nat → Outcome.
Variable text : jsstring.
Variable retries : nat.

Lemma chatLoop_policy remaining : ∀ attempt waited,
  chatLoop net text retries remaining attempt waited
  = policyLoop classifyChat net text retries remaining attempt waited.
Proof.
  induction remaining as [|remaining IH]; intros attempt waited; [done|].
  cbn [chatLoop policyLoop]. rewrite IH.
  destruct (net attempt) as [|status b| | |content]; cbn [classifyChat];
    try done.
  destruct (isRateLimit status), (attempt <? retries - 1)%nat; done.
Qed.

Lemma qwenLoop_policy remaining : ∀ attempt waited,
  qwenLoop net text retries remaining attempt waited
  = policyLoop classifyQwen net text retries remaining attempt waited.
Proof.
  induction remaining as [|remaining IH]; intros attempt waited; [done|].
  cbn [qwenLoop policyLoop]. rewrite IH.
  destruct (net attempt) as [|status [|]| | |[|c content]];
    cbn [classifyQwen]; try done.
  destruct (isRateLimit status), (attempt <? retries - 1)%nat; done.
Qed.

Variable classify : Outcome → Action.

(** The loop invariant: what a run that starts at [attempt] does. *)
Lemma policyLoop_inv remaining : ∀ attempt waited,
  (remaining + attempt = retries)%nat → (0 < remaining)%nat →
  let r := policyLoop classify net text retries remaining attempt waited in
  (attempt < fetches r ≤ retries)%nat
  ∧ delays r = waited ++ map waitTime (seq attempt (fetches r - 1 - attempt))
  ∧ (∀ n, (attempt ≤ n)%nat → (S n < fetches r)%nat →
       classify (net n) = Retryable)
  ∧ (∀ n, (attempt ≤ n)%nat → (n < fetches r)%nat → (S n < retries)%nat →
       classify (net n) = Retryable → (S n < fetches r)%nat)
  ∧ match classify (net (fetches r - 1)%nat) with
    | Succeed s => returned r = s
    | _ => returned r = fallbackSummary text
    end.
Proof.
  induction remaining as [|remaining IH]; intros attempt waited Hsum Hpos;
    [lia|].
  cbn [policyLoop]. cbv zeta.
  assert (Hlast : ∀ s,
    match classify (net attempt) with
    | Succeed s' => s = s'
    | _ => s = fallbackSummary text
    end →
    (classify (net attempt) = Retryable → ¬ (S attempt < retries)%nat) →
    let r := mkRun s (S attempt) waited in
    (attempt < fetches r ≤ retries)%nat
    ∧ delays r = waited ++ map waitTime (seq attempt (fetches r - 1 - attempt))
    ∧ (∀ n, (attempt ≤ n)%nat → (S n < fetches r)%nat →
         classify (net n) = Retryable)
    ∧ (∀ n, (attempt ≤ n)%nat → (n < fetches r)%nat → (S n < retries)%nat →
         classify (net n) = Retryable → (S n < fetches r)%nat)
    ∧ match classify (net (fetches r - 1)%nat) with
      | Succeed s => returned r = s
      | _ => returned r = fallbackSummary text
      end).
  { intros s Hs Hno. cbn [fetches delays returned].
    split; [lia|]. split.
    { replace (S attempt - 1 - attempt)%nat with 0%nat by lia.
      by rewrite app_nil_r. }
    split; [intros; lia|]. split.
    { intros n ? ? ? Hn. assert (n = attempt) as -> by lia. by apply Hno in Hn. }
    replace (S attempt - 1)%nat with attempt by lia. exact Hs. }
  destruct (classify (net attempt)) as [s| |] eqn:Hc.
  - by apply Hlast.
  - by apply Hlast.
  - destruct (Nat.ltb_spec attempt (retries - 1)) as [Hlt|Hge].
    + destruct (IH (S attempt) (waited ++ [waitTime attempt]))
        as (Hf & Hd & Hretry & Hnext & Hres); [lia..|].
      set (r := policyLoop _ _ _ _ _ _ _) in *.
      split; [lia|]. split.
      { rewrite Hd, <- app_assoc. f_equal.
        replace (fetches r - 1 - attempt)%nat
          with (S (fetches r - 1 - S attempt)) by lia.
        done. }
      split.
      { intros n Hn1 Hn2. destruct (decide (n = attempt)) as [->|];
          [done|apply Hretry; lia]. }
      split; [|done].
      intros n Hn1 Hn2 Hn3 Hn4. destruct (decide (n = attempt)) as [->|];
        [lia|apply Hnext; [lia|done..]].
    + apply Hlast; [done|lia].
Qed.

End RetryFacts.

Lemma policyLoop_behaviour net text classify :
  (∀ o, rateLimited o ∨ o = FetchThrows → classify o = Retryable) →
  (∀ content, classify (OkSummary content) ≠ Retryable) →
  (∀ o s, classify o = Succeed s →
     ∃ content, o = OkSummary content ∧ s = trim content) →
  retryBehaviour net text (policyLoop classify net text 3 3 0 []).
Proof.
  intros HA HB HC.
  destruct (policyLoop_inv net text 3 classify 3 0 [])
    as (Hf & Hd & Hretry & Hnext & Hres); [lia..|].
  set (r := policyLoop _ _ _ _ _ _ _) in *.
  split; [lia|]. split.
  { rewrite Hd, Nat.sub_0_r. cbn [app]. apply map_ext.
    intros n. unfold waitTime. lia. }
  split.
  { intros n Hn1 Hn2 Hn. apply Hnext; [lia..|by apply HA]. }
  split.
  { intros n content Hn Ho. apply (HB content). rewrite <- Ho.
    apply Hretry; [lia|done]. }
  split.
  - destruct (classify (net (fetches r - 1)%nat)) as [s| |] eqn:Hc; [|by left..].
    right. apply HC in Hc as (content & Ho & ->). eauto.
  - intros H3 Hno. rewrite H3 in Hres.
    change (3 - 1)%nat with 2%nat in Hres.
    destruct (classify (net 2%nat)) as [s| |] eqn:Hc; [|done..].
    apply HC in Hc as (content & Ho & _). by destruct (Hno content).
Qed.

Lemma classifyQwen_Retryable o :
  classifyQwen o = Retryable → rateLimited o ∨ requestThrows o.
Proof.
  unfold requestThrows.
  destruct o as [|status [|]| | |[|c content]]; cbn [classifyQwen]; try done;
    try (intros _; right; eauto; fail).
  destruct (isRateLimit status) eqn:E; [|done].
  intros _. left. by exists status, true.
Qed.

Lemma qwenLoop_behaviour net text :
  retryBehaviour net text (qwenLoop net text 3 3 0 [])
  ∧ qwenBehaviour net text (qwenLoop net text 3 3 0 []).
Proof.
  rewrite qwenLoop_policy. split.
  - apply policyLoop_behaviour.
    + intros o [(status & b & -> & Hs) | ->]; [|done]. cbn [classifyQwen].
      rewrite Hs. by destruct b.
    + intros [|c content]; done.
    + intros o s Hs. destruct o as [|status [|]| | |[|c content]];
        cbn [classifyQwen] in Hs; try done.
      * by destruct (isRateLimit status).
      * injection Hs as <-. eauto.
  - destruct (policyLoop_inv net text 3 classifyQwen 3 0 [])
      as (Hf & _ & Hretry & _ & Hres); [lia..|].
    set (r := policyLoop _ _ _ _ _ _ _) in *.
    split.
    + intros n Hn. apply classifyQwen_Retryable, Hretry; [lia|done].
    + intros n status Hn Ho Hs.
      assert (Hc : classifyQwen (net n) = Fail)
        by (rewrite Ho; cbn [classifyQwen]; by rewrite Hs).
      assert (fetches r = S n) as Hlast.
      { destruct (decide (S n < fetches r)%nat) as [Hlt|]; [|lia].
        rewrite (Hretry n) in Hc; [done|lia|done]. }
      split; [done|]. rewrite Hlast in Hres.
      replace (S n - 1)%nat with n in Hres by lia. by rewrite Hc in Hres.
Qed.

Lemma chatLoop_behaviour net text :
  retryBehaviour net text (chatLoop net text 3 3 0 []).
Proof.
  rewrite chatLoop_policy. apply policyLoop_behaviour.
  - by intros o [(status & b & -> & Hs) | ->].
  - done.
  - intros o s Hs. destruct o; cbn [classifyChat] in Hs; try done.
    injection Hs as <-. eauto.
Qed.

(** C6 (amended): a call to a hosted provider makes at most 3
    attempts; the wait before the retry after attempt n is 3 * 2^(n-1)
    seconds (3 s, then 6 s); a 429 or 503 response, and also a failed
    request, is retried while attempts remain; the call resolves to the
    generated text of its last attempt or to the fallback, and to the
    fallback when the three attempts are used up. In the Qwen provider
    nothing but a 429 or 503 response or a thrown request error is
    retried, and any other error response ends the call with the
    fallback. *)
Theorem C6_retry_policy
    (net : nat → Outcome) (text : jsstring) (env : Env) :
  unset (DOUBAO_API_KEY env) = false →
  unset (DEEPSEEK_API_KEY env) = false →
  unset (QWEN_API_KEY env) = false →
  isChinese text = false →
  retryBehaviour net text (generateSummaryWithDoubao net text 3 env)
  ∧ retryBehaviour net text (generateSummaryWithDeepSeek net text 3 env)
  ∧ retryBehaviour net text (generateSummaryWithQwen net text 3 env)
  ∧ qwenBehaviour net text (generateSummaryWithQwen net text 3 env).
Proof.
  intros H1 H2 H3 H4.
  unfold generateSummaryWithDoubao, generateSummaryWithDeepSeek,
    generateSummaryWithQwen.
  rewrite H1, H2, H3, H4.
  split; [apply chatLoop_behaviour|]. split; [apply chatLoop_behaviour|].
  apply qwenLoop_behaviour.
Qed.

Lemma C6_retry_policy_witness :
  unset (QWEN_API_KEY env_keys) = false
  ∧ isChinese text_english = false
  ∧ qwenBehaviour net_500_then_ok text_english
      (generateSummaryWithQwen net_500_then_ok text_english 3 env_keys).
Proof.
  split; [reflexivity|]. split; [reflexivity|].
  apply (C6_retry_policy net_500_then_ok text_english env_keys);
    reflexivity.
Defined.

(** C6, as stated, fails: a retry is not triggered by status 429 or
    503 only. The Qwen provider retries after a failed request, and the
    Doubao provider after a 500 response, where the policy of the
    specification returns the fallback at once. *)
Lemma C6_retry_only_on_rate_limit_counterexample :
  generateSummaryWithQwen net_throw_then_ok text_english 3 env_keys
    = mkRun (str "ok") 2 [3000]
  ∧ summarize_spec net_throw_then_ok text_english
    = mkRun (fallbackSummary text_english) 1 []
  ∧ generateSummaryWithDoubao net_500_then_ok text_english 3 env_keys
    = mkRun (str "ok") 2 [3000]
  ∧ summarize_spec net_500_then_ok text_english
    = mkRun (fallbackSummary text_english) 1 []
  ∧ mkRun (str "ok") 2 [3000] ≠ mkRun (fallbackSummary text_english) 1 [].
Proof. repeat split; try reflexivity. discriminate. Qed.

(** ** The order of the selected articles *)


Lemma StronglySorted_strengthen {A} (R R' : relation A) (ok : A → Prop) l :
  (∀ x y, ok x → ok y → R x y → R' x y) →
  Forall ok l → StronglySorted R l → StronglySorted R' l.
Proof.
  intros HR Hok Hs. induction Hs as [|x l Hs IH Hx]; [constructor|].
  inversion Hok as [|? ? Hox Hol]; subst.
  constructor; [by apply IH|].
  rewrite Forall_forall in *. intros y Hy. apply HR; auto.
Qed.








Lemma generateSummariesBatch_new_Forall2 env net l :
  Forall2 (λ a b, ∃ s, b = set_summary s a) l
          (generateSummariesBatch_new env net l).
Proof.
  unfold generateSummariesBatch_new. destruct (unset _).
  - apply Forall2_fmap_r, Forall_Forall2_diag, Forall_forall. eauto.
  - generalize net. induction l as [|a l IH]; intros net'; [constructor|].
    rewrite imap_cons. constructor; [eauto|]. apply (IH (λ i, net' (S i))).
Qed.


(** ** The minimum per category *)







(** C4: the minimum per category is lost when articles share a link.
    Four feed items without a link are categorised, one as the first
    category and three as the second one; phase 1 picks the first article
    and marks the empty link as used, after which no article of the
    second category is left to pick, in either phase. *)
Lemma C4_category_minimum_link_collision :
  map category (categorizedArticles_of asciiLower CATEGORY_KEYWORDS all_nolink)
    = [cat_materials; cat_corrosion; cat_corrosion; cat_corrosion]
  ∧ countCategory cat_corrosion
      (categorizedArticles_of asciiLower CATEGORY_KEYWORDS all_nolink) = 3%nat
  ∧ map title (articles (main_new asciiLower env_none (λ _ _, FetchThrows)
                           all_nolink))
    = [str "Steel news"]
  ∧ countCategory cat_corrosion
      (articles (main_new asciiLower env_none (λ _ _, FetchThrows)
                   all_nolink)) = 0%nat.
Proof. repeat split; vm_compute; reflexivity. Qed.

(** * The rest of the scripts *)

(** ** White space and tags *)

Lemma trimStart_spec s :
  ∃ k, s = k ++ trimStart s ∧ forallb isWhiteSpace k = true.
Proof.
  induction s as [|c s (k & Hk & Hws)]; [by exists []|].
  simpl. destruct (isWhiteSpace c) eqn:E.
  - exists (c :: k). simpl. rewrite E, Hws. by rewrite <- Hk.
  - by exists [].
Qed.

Lemma trimStart_head s c : head (trimStart s) = Some c → isWhiteSpace c = false.
Proof.
  induction s as [|d s IH]; simpl; [done|].
  destruct (isWhiteSpace d) eqn:E; [done|]. simpl. by intros [= <-].
Qed.

Lemma trimStart_id s :
  (∀ c, head s = Some c → isWhiteSpace c = false) → trimStart s = s.
Proof.
  destruct s as [|c s]; simpl; [done|]. intros H.
  by rewrite (H c eq_refl).
Qed.

Lemma trim_infix s : ∃ k q, s = k ++ trim s ++ q.
Proof.
  destruct (trimStart_spec s) as (k & Hk & _).
  destruct (trimStart_spec (reverse (trimStart s))) as (q & Hq & _).
  exists k, (reverse q). unfold trim.
  rewrite <- reverse_app, <- Hq, reverse_involutive. exact Hk.
Qed.

Lemma trim_sublist s : trim s `sublist_of` s.
Proof.
  destruct (trim_infix s) as (k & q & Hs). rewrite Hs at 2.
  apply sublist_inserts_l, sublist_inserts_r. done.
Qed.

Lemma trim_trimmed s : trimmedb (trim s) = true.
Proof.
  unfold trimmedb, trim.
  set (t := trimStart s). set (u := trimStart (reverse t)).
  destruct (head (reverse u)) as [c|] eqn:Hh; [|done].
  destruct (last (reverse u)) as [d|] eqn:Hl; [|done].
  rewrite last_reverse in Hl. apply trimStart_head in Hl. rewrite Hl.
  rewrite head_reverse in Hh.
  destruct (trimStart_spec (reverse t)) as (k & Hk & _). fold u in Hk.
  assert (last (reverse t) = Some c) as Hc.
  { rewrite Hk. destruct u as [|x u'] using rev_ind; [done|].
    rewrite last_snoc in Hh. rewrite app_assoc, last_snoc. done. }
  rewrite last_reverse in Hc. apply trimStart_head in Hc. by rewrite Hc.
Qed.

Lemma trim_id s : trimmedb s = true → trim s = s.
Proof.
  unfold trimmedb, trim. intros H.
  destruct s as [|c s]; [done|]. simpl in H.
  destruct (last (c :: s)) as [d|] eqn:Hl; [|by apply last_None in Hl].
  apply andb_true_iff in H as [Hc Hd].
  apply negb_true_iff in Hc, Hd.
  rewrite (trimStart_id (c :: s)) by (by intros ? [= <-]).
  rewrite trimStart_id; [apply reverse_involutive|].
  intros x. rewrite head_reverse, Hl. by intros [= <-].
Qed.

Lemma trim_idemp s : trim (trim s) = trim s.
Proof. apply trim_id, trim_trimmed. Qed.

Lemma existsb_sublist {A} (P : A → bool) l1 l2 :
  l1 `sublist_of` l2 → existsb P l1 = true → existsb P l2 = true.
Proof.
  induction 1 as [|x l1 l2 _ IH|x l1 l2 _ IH]; simpl; [done| |].
  - intros [->|H]%orb_true_iff; [done|]. rewrite IH by done. apply orb_true_r.
  - intros H. rewrite IH by done. apply orb_true_r.
Qed.

Lemma containsTag_sublist l1 l2 :
  l1 `sublist_of` l2 → containsTag l2 = false → containsTag l1 = false.
Proof.
  induction 1 as [|x l1 l2 Hsub IH|x l1 l2 Hsub IH]; simpl; [done| |].
  - intros [H1 H2]%orb_false_iff. rewrite IH by done. rewrite orb_false_r.
    destruct (x =? 60)%N; [|done]. simpl in *.
    destruct (existsb _ l1) eqn:E; [|done].
    by rewrite (existsb_sublist _ _ _ Hsub E) in H1.
  - intros [_ H2]%orb_false_iff. by apply IH.
Qed.

(** A tag is a ['<'] followed, anywhere later, by a ['>']. *)
Lemma containsTag_spec s :
  containsTag s = true ↔ ∃ l1 l2 l3, s = l1 ++ 60%N :: l2 ++ 62%N :: l3.
Proof.
  induction s as [|c s IH]; simpl.
  - split; [done|]. intros (l1 & l2 & l3 & H). by destruct l1.
  - rewrite orb_true_iff, andb_true_iff, IH. split.
    + intros [[Hc Hex]|(l1 & l2 & l3 & ->)].
      * apply N.eqb_eq in Hc as ->.
        apply existsb_exists in Hex as (d & Hd & ->%N.eqb_eq).
        apply list_elem_of_In, list_elem_of_split in Hd as (l2 & l3 & ->).
        by exists [], l2, l3.
      * by exists (c :: l1), l2, l3.
    + intros ([|x l1] & l2 & l3 & H); simplify_eq/=.
      * left. split; [done|]. apply existsb_exists. exists 62%N.
        split; [|done]. apply list_elem_of_In, elem_of_app. right. left.
      * right. by exists l1, l2, l3.
Qed.

Lemma removeTags_existsb P s : ∀ b,
  existsb P (removeTags b s) = true → existsb P s = true.
Proof.
  induction s as [|c s IH]; intros b; simpl; [done|].
  destruct b.
  - destruct (c =? 62)%N; intros H%IH; rewrite H; apply orb_true_r.
  - destruct ((c =? 60)%N && existsb _ s); simpl.
    + intros H%IH. rewrite H. apply orb_true_r.
    + intros [->|H%IH]%orb_true_iff; [done|]. rewrite H. apply orb_true_r.
Qed.

Lemma removeTags_clean s : ∀ b, containsTag (removeTags b s) = false.
Proof.
  induction s as [|c s IH]; intros b; simpl; [done|].
  destruct b.
  - destruct (c =? 62)%N; apply IH.
  - destruct ((c =? 60)%N && existsb _ s) eqn:E; [apply IH|].
    simpl. rewrite IH, orb_false_r.
    destruct (c =? 60)%N; [|done]. simpl in *.
    destruct (existsb _ (removeTags false s)) eqn:E'; [|done].
    by rewrite (removeTags_existsb _ _ _ E') in E.
Qed.

Lemma removeTags_id s : containsTag s = false → removeTags false s = s.
Proof.
  induction s as [|c s IH]; simpl; [done|].
  intros [-> H]%orb_false_iff. by rewrite IH.
Qed.

Lemma removeTags_length s : ∀ b, (length (removeTags b s) ≤ length s)%nat.
Proof.
  induction s as [|c s IH]; intros b; simpl; [done|].
  destruct b.
  - destruct (c =? 62)%N; [specialize (IH false)|specialize (IH true)]; lia.
  - destruct ((c =? 60)%N && existsb _ s); simpl;
      [specialize (IH true)|specialize (IH false)]; lia.
Qed.

Lemma stripHtml_clean html : containsTag (stripHtml html) = false.
Proof.
  destruct html as [[|c s]|]; try done. unfold stripHtml.
  eapply containsTag_sublist; [apply trim_sublist|apply removeTags_clean].
Qed.

Lemma stripHtml_trimmed html : trimmedb (stripHtml html) = true.
Proof. destruct html as [[|c s]|]; try done. apply trim_trimmed. Qed.

(** X1: what [stripHtml] returns holds no tag (no ['<'] with a ['>']
    after it) and neither starts nor ends with white space; stripping it
    again changes nothing; it is never longer than the input; and an
    input without a tag is only trimmed. A missing input counts as the
    empty string. *)
Theorem stripHtml_no_tag_idempotent (html : option jsstring) :
  containsTag (stripHtml html) = false
  ∧ trimmedb (stripHtml html) = true
  ∧ stripHtml (Some (stripHtml html)) = stripHtml html
  ∧ (length (stripHtml html) ≤ length (default [] html))%nat
  ∧ (containsTag (default [] html) = false →
     stripHtml html = trim (default [] html)).
Proof.
  split; [apply stripHtml_clean|]. split; [apply stripHtml_trimmed|].
  split; [|split].
  - pose proof (stripHtml_clean html) as Hc.
    pose proof (stripHtml_trimmed html) as Ht.
    destruct (stripHtml html) as [|c r] eqn:E; [done|].
    unfold stripHtml at 1. rewrite removeTags_id by done. by apply trim_id.
  - destruct html as [[|c s]|]; simpl; try lia.
    etrans; [apply sublist_length, trim_sublist|].
    apply (removeTags_length (c :: s) false).
  - destruct html as [[|c s]|]; try done.
    intros H. unfold stripHtml. by rewrite removeTags_id.
Qed.

(** ** Normalisation of the feed items *)

Lemma forItems_Some articleOf items l :
  forItems articleOf items = Some l ↔
  Forall2 (λ item a, articleOf item = Some a) items l.
Proof.
  revert l. induction items as [|item items IH]; intros l; simpl.
  - split; [intros [= <-]; constructor|by intros ->%Forall2_nil_inv_l].
  - destruct (articleOf item) as [a|] eqn:Ha.
    + destruct (forItems articleOf items) as [l'|] eqn:Hl.
      * split.
        -- intros [= <-]. constructor; [done|by apply IH].
        -- intros (a' & l'' & Ha' & Hl' & ->)%Forall2_cons_inv_l.
           apply IH in Hl'. congruence.
      * split; [done|].
        intros (a' & l'' & _ & Hl' & ->)%Forall2_cons_inv_l.
        by apply IH in Hl'.
    + split; [done|].
      intros (a' & l'' & Ha' & _ & ->)%Forall2_cons_inv_l. congruence.
Qed.

Lemma forItems_None articleOf items :
  forItems articleOf items = None ↔
  Exists (λ item, articleOf item = None) items.
Proof.
  induction items as [|item items IH]; simpl.
  - split; [done|by intros ?%Exists_nil].
  - rewrite Exists_cons. destruct (articleOf item) as [a|] eqn:Ha.
    + destruct (forItems articleOf items) as [l'|] eqn:Hl.
      * split; [done|]. intros [?|H]; [done|]. by apply IH in H.
      * split; [intros _; right; by apply IH|done].
    + split; [by left|done].
Qed.

Lemma fetchRSS_with_elem articleOf feed a :
  a ∈ fetchRSS_with articleOf feed →
  ∃ items item, feed = Some items ∧ item ∈ items ∧ articleOf item = Some a.
Proof.
  unfold fetchRSS_with. destruct feed as [items|]; [|by intros ?%elem_of_nil].
  destruct (forItems articleOf items) as [l|] eqn:Hl;
    [|by intros ?%elem_of_nil].
  simpl. intros Ha. apply forItems_Some in Hl.
  apply list_elem_of_lookup in Ha as [i Hi].
  destruct (Forall2_lookup_r _ _ _ _ _ Hl Hi) as (item & Hitem & Hart).
  exists items, item. split; [done|].
  split; [by eapply list_elem_of_lookup_2|done].
Qed.

Section FetchFacts.
Variable parseDate : jsstring → option Z.
Variable now : Z.

Lemma itemText_bounds item :
  (length (substring0 500 (itemText item)) ≤ 500)%nat
  ∧ containsTag (substring0 500 (itemText item)) = false.
Proof.
  unfold substring0. split; [rewrite length_take; lia|].
  eapply containsTag_sublist; [apply sublist_take|apply stripHtml_clean].
Qed.

Lemma fetchRSS_fields (feed : option (list Item)) (cat : jsstring) :
  Forall (λ a, normalized a ∧ category a = cat
               ∧ summary a = fallbackSummary (description a))
         (fetchRSS_sequential parseDate now feed cat)
  ∧ Forall (λ a, normalized a ∧ category a = cat ∧ summary a = [])
           (fetchRSS_optimized parseDate now feed cat)
  ∧ Forall (λ a, normalized a ∧ category a = [] ∧ summary a = [])
           (fetchRSS_keyword parseDate now feed).
Proof.
  repeat split; apply Forall_forall; intros a Ha;
    apply fetchRSS_with_elem in Ha as (items & item & _ & _ & Ha);
    unfold articleOf_sequential, articleOf_optimized, articleOf_keyword in Ha;
    (destruct (itemDate parseDate now item) as [d|]; [|done]);
    apply (inj Some) in Ha; subst a; unfold rawArticle, normalized;
    cbn [title link description summary category relevanceScore finalScore];
    destruct (itemText_bounds item) as [Hlen Htag];
    (split; [repeat split; first [done | apply trim_trimmed]|]);
    (split; [done|]); [|done..].
  unfold fallbackSummary, substring0. by rewrite take_take.
Qed.

Lemma fetchRSS_with_None articleOf : fetchRSS_with articleOf None = [].
Proof. done. Qed.

Lemma fetchRSS_with_fail articleOf items :
  Exists (λ item, articleOf item = None) items →
  fetchRSS_with articleOf (Some items) = [].
Proof. intros H%forItems_None. unfold fetchRSS_with. by rewrite H. Qed.

Lemma fetchRSS_with_ok articleOf items :
  Forall (λ item, is_Some (articleOf item)) items →
  Forall2 (λ item a, articleOf item = Some a) items
          (fetchRSS_with articleOf (Some items)).
Proof.
  intros Hok. unfold fetchRSS_with.
  destruct (forItems articleOf items) as [l|] eqn:Hl.
  - by apply forItems_Some.
  - apply forItems_None, Exists_exists in Hl as (item & Hin & Hnone).
    rewrite Forall_forall in Hok. destruct (Hok item Hin) as [a Ha]. congruence.
Qed.

Lemma fetchRSS_with_allOrNothing articleOf :
  (∀ item, articleOf item = None ↔ itemDate parseDate now item = None) →
  (∀ item a, articleOf item = Some a →
     title a = itemTitle item ∧ link a = itemLink item
     ∧ Some (date a) = itemDate parseDate now item) →
  feedAllOrNothing parseDate now (fetchRSS_with articleOf).
Proof.
  intros Hnone Hsome. split; [done|]. intros items. split.
  - intros H. apply fetchRSS_with_fail.
    eapply Exists_impl; [exact H|]. intros item. apply Hnone.
  - intros H.
    assert (Hok : Forall (λ item, is_Some (articleOf item)) items).
    { eapply Forall_impl; [exact H|]. intros item [d Hd].
      destruct (articleOf item) as [a|] eqn:Ha; [by eexists|].
      apply Hnone in Ha. congruence. }
    apply fetchRSS_with_ok in Hok.
    induction Hok as [|item a items l Ha _ IH]; [done|].
    apply Forall_cons in H as [_ H].
    destruct (Hsome _ _ Ha) as (E1 & E2 & E3).
    destruct (IH H) as (IH1 & IH2 & IH3). cbn [map].
    by rewrite IH1, IH2, IH3, E1, E2, E3.
Qed.

Lemma fetchRSS_feed_cases (cat : jsstring) :
  feedAllOrNothing parseDate now
    (λ feed, fetchRSS_sequential parseDate now feed cat)
  ∧ feedAllOrNothing parseDate now
      (λ feed, fetchRSS_optimized parseDate now feed cat)
  ∧ feedAllOrNothing parseDate now (fetchRSS_keyword parseDate now).
Proof.
  split; [|split].
  - apply (fetchRSS_with_allOrNothing (articleOf_sequential parseDate now cat));
      intros item; unfold articleOf_sequential;
      destruct (itemDate parseDate now item); try done.
    by intros a [= <-].
  - apply (fetchRSS_with_allOrNothing (articleOf_optimized parseDate now cat));
      intros item; unfold articleOf_optimized;
      destruct (itemDate parseDate now item); try done.
    by intros a [= <-].
  - apply (fetchRSS_with_allOrNothing (articleOf_keyword parseDate now));
      intros item; unfold articleOf_keyword;
      destruct (itemDate parseDate now item); try done.
    by intros a [= <-].
Qed.

End FetchFacts.

(** X2: every article that [fetchRSS] builds, in each of the three
    scripts, has a description of at most 500 code units without a tag,
    a title and a link without white space at either end, and no score
    yet. The first two scripts give it the category of the request, the
    keyword script the empty category; the first script also sets the
    summary to the first 150 code units of the description followed by
    three dots, the other two leave it empty. *)
Theorem fetchRSS_normalized
    (parseDate : jsstring → option Z) (now : Z)
    (feed : option (list Item)) (cat : jsstring) :
  Forall (λ a, normalized a ∧ category a = cat
               ∧ summary a = fallbackSummary (description a))
         (fetchRSS_sequential parseDate now feed cat)
  ∧ Forall (λ a, normalized a ∧ category a = cat ∧ summary a = [])
           (fetchRSS_optimized parseDate now feed cat)
  ∧ Forall (λ a, normalized a ∧ category a = [] ∧ summary a = [])
           (fetchRSS_keyword parseDate now feed).
Proof. exact (fetchRSS_fields parseDate now feed cat). Qed.

(** X3: [fetchRSS] gives all the items of a feed or none. When the
    request fails, or when the date of one item cannot be read (the
    conversion to an ISO string throws inside the [try]), the result is
    the empty list, whatever the other items are; otherwise there is one
    article per item, in the order of the feed, with the trimmed title,
    the trimmed link and the date of its item. *)
Theorem fetchRSS_all_or_nothing
    (parseDate : jsstring → option Z) (now : Z) (cat : jsstring) :
  feedAllOrNothing parseDate now
    (λ feed, fetchRSS_sequential parseDate now feed cat)
  ∧ feedAllOrNothing parseDate now
      (λ feed, fetchRSS_optimized parseDate now feed cat)
  ∧ feedAllOrNothing parseDate now (fetchRSS_keyword parseDate now).
Proof. exact (fetchRSS_feed_cases parseDate now cat). Qed.

(** ** Collecting the feeds *)

Lemma collect_fold results : ∀ st,
  allArticles (fold_left collectStep results st)
    = allArticles st ++ concat (map (default []) results)
  ∧ successCount (fold_left collectStep results st)
    = (successCount st + length (filter (λ r, fulfilledNonEmpty r = true) results))%nat
  ∧ failCount (fold_left collectStep results st)
    = (failCount st + length (filter (λ r, fulfilledNonEmpty r = false) results))%nat.
Proof.
  induction results as [|r results IH]; intros st; cbn [fold_left].
  - cbn. rewrite app_nil_r. repeat split; [done|lia..].
  - destruct (IH (collectStep st r)) as (H1 & H2 & H3).
    rewrite H1, H2, H3. rewrite !filter_cons.
    destruct r as [[|a value]|]; cbn; rewrite ?app_nil_r, <- ?app_assoc;
      repeat split; try done; lia.
Qed.

Lemma collect_totals (results : list (option (list Article))) :
  allArticles (collect results) = concat (map (default []) results)
  ∧ (successCount (collect results) + failCount (collect results)
     = length results)%nat
  ∧ successCount (collect results)
    = length (filter (λ r, fulfilledNonEmpty r = true) results)
  ∧ (successCount (collect results) = 0%nat ↔ allArticles (collect results) = []).
Proof.
  destruct (collect_fold results (mkFetched [] 0 0)) as (H1 & H2 & H3).
  fold (collect results) in *. cbn in H1, H2, H3.
  split; [done|]. split.
  { rewrite H2, H3.
    pose proof (filter_app_complement (λ r, fulfilledNonEmpty r = true) results) as Hp.
    apply Permutation_length in Hp. rewrite length_app in Hp.
    rewrite <- Hp. f_equal. f_equal. apply list_filter_iff.
    intros r. by destruct (fulfilledNonEmpty r). }
  split; [done|].
  rewrite H1, H2. clear.
  induction results as [|[[|a v]|] results IH]; cbn; done.
Qed.

(** X4: collecting the settled requests: the articles are those of the
    fulfilled requests, in the order of the requests; every request is
    counted once, as a success or as a failure; a request is a success
    exactly when it is fulfilled with at least one article (an empty
    feed counts as a failure); and no success means no article. *)
Theorem collect_counts (results : list (option (list Article))) :
  allArticles (collect results) = concat (map (default []) results)
  ∧ (successCount (collect results) + failCount (collect results)
     = length results)%nat
  ∧ successCount (collect results)
    = length (filter (λ r, fulfilledNonEmpty r = true) results)
  ∧ (successCount (collect results) = 0%nat ↔ allArticles (collect results) = []).
Proof. exact (collect_totals results). Qed.

(** ** First listing of a feed *)

Lemma concat_split {A} (bs : list (list A)) : ∀ l1 a l2,
  concat bs = l1 ++ a :: l2 →
  ∃ bs1 p q bs2, bs = bs1 ++ (p ++ a :: q) :: bs2
                 ∧ l1 = concat bs1 ++ p ∧ l2 = q ++ concat bs2.
Proof.
  induction bs as [|b bs IH]; intros l1 a l2 H; cbn in H.
  - by destruct l1.
  - apply app_eq_app in H as [l [[Hb Hl]|[Hl Hb]]].
    + destruct l as [|x l].
      * rewrite app_nil_r in Hb. subst b. cbn in Hl. symmetry in Hl.
        apply (IH [] a l2) in Hl as (bs1 & p & q & bs2 & -> & Hp & ->).
        exists (l1 :: bs1), p, q, bs2. cbn. by rewrite <- app_assoc, <- Hp, app_nil_r.
      * cbn in Hl. injection Hl as <- ->.
        exists [], l1, l, bs. by subst b.
    + apply IH in Hb as (bs1 & p & q & bs2 & -> & -> & ->).
      exists (b :: bs1), p, q, bs2. cbn. by rewrite Hl, <- app_assoc.
Qed.

Section FirstListing.
Variable parseDate : jsstring → option Z.
Variable now : Z.
Variable parseURL : jsstring → option (list Item).

Lemma fetchRSS_optimized_titles feed c c' :
  map title (fetchRSS_optimized parseDate now feed c)
  = map title (fetchRSS_optimized parseDate now feed c').
Proof.
  destruct feed as [items|]; [|done].
  destruct (fetchRSS_feed_cases parseDate now c) as (_ & [_ H] & _).
  destruct (fetchRSS_feed_cases parseDate now c') as (_ & [_ H'] & _).
  destruct (decide (Forall (λ item, is_Some (itemDate parseDate now item)) items))
    as [Hok|Hbad].
  - destruct (proj2 (H items) Hok) as [-> _].
    by destruct (proj2 (H' items) Hok) as [-> _].
  - apply not_Forall_Exists in Hbad; [|apply _].
    assert (Hex : Exists (λ item, itemDate parseDate now item = None) items).
    { eapply Exists_impl; [exact Hbad|]. intros item Hn. cbn in Hn.
      destruct (itemDate parseDate now item); [|done]. by destruct Hn. }
    by rewrite (proj1 (H items) Hex), (proj1 (H' items) Hex).
Qed.

Lemma fetchAllRSS_sources_articles sources :
  allArticles (fetchAllRSS_sources parseDate now parseURL sources)
  = concat (map (λ req, fetchRSS_optimized parseDate now (parseURL req.2) req.1)
              (requestsOf sources)).
Proof.
  unfold fetchAllRSS_sources.
  destruct (collect_totals (map (λ req, Some (fetchRSS_optimized parseDate now
    (parseURL req.2) req.1)) (requestsOf sources))) as [-> _].
  by rewrite <- list_fmap_compose.
Qed.

(** Every article that survives the deduplication comes from the
    first request of its feed. *)
Lemma dedup_first_request (sources : list (jsstring * list jsstring)) :
  Forall (λ a, ∃ r1 c u r2,
            requestsOf sources = r1 ++ (c, u) :: r2
            ∧ a ∈ fetchRSS_optimized parseDate now (parseURL u) c
            ∧ category a = c
            ∧ u ∉ map snd r1)
         (dedup (allArticles (fetchAllRSS_sources parseDate now parseURL sources))).
Proof.
  apply Forall_forall. intros a Ha.
  rewrite dedup_dedupFrom in Ha.
  apply dedupFrom_is_first in Ha as (l1 & l2 & Hall & Hfresh).
  rewrite fetchAllRSS_sources_articles in Hall.
  apply concat_split in Hall as (bs1 & p & q & bs2 & Hbs & -> & _).
  apply fmap_app_inv in Hbs as (r1 & r' & Hr1 & Hr' & Hreqs).
  symmetry in Hr'.
  apply fmap_cons_inv in Hr' as ([c u] & r2 & Hb & _ & ->). cbn in Hb.
  assert (Hin : a ∈ fetchRSS_optimized parseDate now (parseURL u) c).
  { rewrite <- Hb. apply elem_of_app. right. left. }
  exists r1, c, u, r2. split; [done|]. split; [done|]. split.
  - destruct (fetchRSS_fields parseDate now (parseURL u) c) as (_ & H & _).
    rewrite Forall_forall in H. by destruct (H a Hin) as (_ & ? & _).
  - intros ([c' u'] & Hu & Hreq)%list_elem_of_fmap. cbn in Hu. subst u'.
    apply Hfresh. rewrite map_app. apply elem_of_app. left.
    assert (title a ∈ map title
              (fetchRSS_optimized parseDate now (parseURL u) c'))
      as (x & Hx & Hxin)%list_elem_of_fmap.
    { rewrite (fetchRSS_optimized_titles _ c' c).
      by apply list_elem_of_fmap_2. }
    rewrite Hx. apply list_elem_of_fmap_2.
    apply list_elem_of_In, in_concat.
    exists (fetchRSS_optimized parseDate now (parseURL u) c').
    split; [|by apply list_elem_of_In]. rewrite Hr1.
    by apply list_elem_of_In, (list_elem_of_fmap_2
      (λ req, fetchRSS_optimized parseDate now (parseURL req.2) req.1)
      r1 (c', u)).
Qed.

End FirstListing.

(** X5: in the optimised script, when a feed address gives the same
    items each time it is requested during a run, every article that
    survives the deduplication by title comes from a request whose
    address no earlier request has, and carries the category of that
    request: a feed listed under several categories counts for the first
    of them only. *)
Theorem dedup_first_listing
    (parseDate : jsstring → option Z) (now : Z)
    (parseURL : jsstring → option (list Item))
    (sources : list (jsstring * list jsstring)) :
  Forall (λ a, ∃ r1 c u r2,
            requestsOf sources = r1 ++ (c, u) :: r2
            ∧ a ∈ fetchRSS_optimized parseDate now (parseURL u) c
            ∧ category a = c
            ∧ u ∉ map snd r1)
         (dedup (allArticles (fetchAllRSS_sources parseDate now parseURL sources))).
Proof. exact (dedup_first_request parseDate now parseURL sources). Qed.

(** ** The recency-only pipeline *)

Lemma generateSummariesBatch_optimized_Forall2 env net l :
  Forall2 (λ a b, ∃ s, b = set_summary s a) l
          (generateSummariesBatch_optimized env net l).
Proof.
  unfold generateSummariesBatch_optimized.
  generalize net. induction l as [|a l IH]; intros net'; [constructor|].
  rewrite imap_cons. constructor; [eauto|]. apply (IH (λ i, net' (S i))).
Qed.

Lemma main_optimized_Forall2 cats env net all :
  Forall2 (λ a b, ∃ s, b = set_summary s a)
          (limitedArticles_recency all)
          (articles (main_optimized cats env net all)).
Proof.
  cbn [articles main_optimized]. destruct (_ || _).
  - apply generateSummariesBatch_optimized_Forall2.
  - apply Forall2_fmap_r, Forall_Forall2_diag, Forall_forall. eauto.
Qed.

Lemma set_summary_Forall2_map {B} (f : Article → B) l k :
  (∀ s a, f (set_summary s a) = f a) →
  Forall2 (λ a b, ∃ s, b = set_summary s a) l k → map f k = map f l.
Proof.
  intros Hf. induction 1 as [|a b l k [s ->] _ IH]; [done|].
  cbn. by rewrite Hf, IH.
Qed.

Lemma StronglySorted_set_summary (R : relation Article) l k :
  (∀ a b s s', R a b → R (set_summary s a) (set_summary s' b)) →
  Forall2 (λ a b, ∃ s, b = set_summary s a) l k →
  StronglySorted R l → StronglySorted R k.
Proof.
  intros HR. induction 1 as [|a b l k [s ->] H2 IH]; [constructor|].
  intros [Ha Hl]%StronglySorted_cons. constructor; [by apply IH|].
  clear IH Hl. induction H2 as [|a' b' l k [s' ->] _ IH]; [constructor|].
  apply Forall_cons in Ha as [Ha Hl]. constructor; [by apply HR|by apply IH].
Qed.

Lemma limitedArticles_recency_sublist all :
  limitedArticles_recency all `sublist_of` jsSort cmpDate (dedup all).
Proof. apply slice0_sublist. Qed.

Lemma dedup_NoDup_titles all : NoDup (map title (dedup all)).
Proof. rewrite dedup_dedupFrom. apply dedupFrom_NoDup. Qed.

Lemma jsSort_cmpDate_sorted l :
  StronglySorted (λ a b, date b ≤ date a) (jsSort cmpDate l).
Proof.
  apply (StronglySorted_strengthen
           (λ a b, (inject_Z (date b) <= inject_Z (date a))%Q) _ (λ _, True)).
  - intros x y _ _. by rewrite <- Zle_Qle.
  - by apply Forall_forall.
  - apply (jsSort_sorted cmpDate (λ a, inject_Z (date a)) (λ _, True)).
    + intros x y _ _. unfold cmpDate. rewrite Qle_bool_iff.
      change 0%Q with (inject_Z 0). rewrite <- !Zle_Qle. lia.
    + by apply Forall_forall.
Qed.

(** X7: the snapshot of the recency-only edition is sorted from the
    newest article to the oldest, its titles are pairwise distinct, no
    deduplicated article that was left out is newer than an article that
    was kept, and when at most 50 articles survive the deduplication all
    of them are in the snapshot. *)
Theorem recency_snapshot_newest_first
    (cats : list jsstring) (env : Env) (net : nat → nat → Outcome)
    (all : list Article) :
  StronglySorted (λ a b, date b ≤ date a)
                 (articles (main_optimized cats env net all))
  ∧ NoDup (map title (articles (main_optimized cats env net all)))
  ∧ (∀ a b, a ∈ dedup all →
            title a ∉ map title (articles (main_optimized cats env net all)) →
            b ∈ articles (main_optimized cats env net all) →
            date a ≤ date b)
  ∧ ((length (dedup all) ≤ 50)%nat →
     map title (articles (main_optimized cats env net all))
     ≡ₚ map title (dedup all)).
Proof.
  pose proof (main_optimized_Forall2 cats env net all) as H2.
  pose proof (jsSort_cmpDate_sorted (dedup all)) as Hs.
  assert (Hlim : limitedArticles_recency all = take 50 (jsSort cmpDate (dedup all)))
    by done.
  rewrite <- (take_drop 50 (jsSort cmpDate (dedup all))) in Hs.
  rewrite <- Hlim in Hs.
  split; [|split; [|split]].
  - eapply StronglySorted_set_summary; [|exact H2|].
    + by intros a b s s' Hab.
    + by apply StronglySorted_app_1_l in Hs.
  - rewrite (set_summary_Forall2_map title _ _ (λ _ _, eq_refl) H2).
    eapply sublist_NoDup; [|apply (fmap_sublist title), limitedArticles_recency_sublist].
    rewrite jsSort_Permutation. apply dedup_NoDup_titles.
  - intros a b Ha Hfresh Hb.
    rewrite (set_summary_Forall2_map title _ _ (λ _ _, eq_refl) H2) in Hfresh.
    assert (b' : ∃ b0, b0 ∈ limitedArticles_recency all ∧ date b = date b0).
    { apply list_elem_of_lookup in Hb as [i Hi].
      destruct (Forall2_lookup_r _ _ _ _ _ H2 Hi) as (b0 & Hb0 & s & ->).
      exists b0. split; [by eapply list_elem_of_lookup_2|done]. }
    destruct b' as (b0 & Hb0 & ->).
    apply (jsSort_elem cmpDate) in Ha.
    rewrite <- (take_drop 50 (jsSort cmpDate (dedup all))), <- Hlim in Ha.
    apply elem_of_app in Ha as [Ha|Ha].
    + destruct Hfresh. by apply list_elem_of_fmap_2.
    + by apply (StronglySorted_app_1_elem_of _ _ _ _ _ Hs Hb0 Ha).
  - intros Hlen.
    rewrite (set_summary_Forall2_map title _ _ (λ _ _, eq_refl) H2).
    rewrite Hlim, take_ge by (rewrite jsSort_length; lia).
    by rewrite jsSort_Permutation.
Qed.

(** ** Categories that never show *)

Lemma main_optimized_elem cats env net all b :
  b ∈ articles (main_optimized cats env net all) →
  ∃ b0 s, b0 ∈ dedup all ∧ b = set_summary s b0.
Proof.
  intros Hb. apply list_elem_of_lookup in Hb as [i Hi].
  destruct (Forall2_lookup_r _ _ _ _ _ (main_optimized_Forall2 cats env net all) Hi)
    as (b0 & Hb0 & s & ->).
  exists b0, s. split; [|done].
  apply list_elem_of_lookup_2 in Hb0.
  eapply elem_of_submseteq in Hb0;
    [|apply sublist_submseteq, limitedArticles_recency_sublist].
  by apply jsSort_elem in Hb0.
Qed.

(** X6: in the optimised script, a category all of whose feeds are
    requested earlier in [RSS_SOURCES] (under another category, or
    twice under its own) never labels an article of the snapshot, when a
    feed address gives the same items each time it is requested during
    a run. With the sources of the script this is the case of the last
    two categories, whose feeds are all listed under earlier ones. *)
Theorem shadowed_category_never_shown
    (parseDate : jsstring → option Z) (now : Z)
    (parseURL : jsstring → option (list Item))
    (sources : list (jsstring * list jsstring)) (c : jsstring)
    (env : Env) (net : nat → nat → Outcome) :
  shadowed sources c = true →
  Forall (λ a, category a ≠ c)
         (articles (run_optimized parseDate now parseURL sources env net)).
Proof.
  intros Hsh. apply Forall_forall. intros b Hb Hc.
  apply main_optimized_elem in Hb as (b0 & s & Hb0 & ->). cbn in Hc.
  pose proof (dedup_first_request parseDate now parseURL sources) as Hfirst.
  rewrite Forall_forall in Hfirst.
  destruct (Hfirst b0 Hb0) as (r1 & c0 & u & r2 & Hreqs & _ & Hcat & Hu).
  unfold shadowed in Hsh. rewrite forallb_forall in Hsh.
  specialize (Hsh (length r1)).
  rewrite Hreqs, list_lookup_middle, take_app_length in Hsh by done.
  rewrite bool_decide_eq_true_2 in Hsh by congruence.
  apply Hu. eapply bool_decide_eq_true_1. apply Hsh. apply in_seq.
  rewrite length_app. cbn. lia.
Qed.

Lemma shadowed_category_never_shown_witness :
  shadowed RSS_SOURCES_optimized cat_fastener = true
  ∧ shadowed RSS_SOURCES_optimized cat_compliance = true
  ∧ Forall (λ a, category a ≠ cat_fastener)
      (articles (run_optimized (λ _, Some 0) 0 parseURL_example
                   RSS_SOURCES_optimized env_none (λ _ _, FetchThrows)))
  ∧ Forall (λ a, category a ≠ cat_compliance)
      (articles (run_optimized (λ _, Some 0) 0 parseURL_example
                   RSS_SOURCES_optimized env_none (λ _ _, FetchThrows))).
Proof.
  split; [reflexivity|]. split; [reflexivity|].
  split; apply shadowed_category_never_shown; reflexivity.
Defined.

(** ** No article is selected twice *)

Lemma quotaGroups_fresh arts cs : ∀ used a,
  a ∈ concat (quotaGroups arts used cs) → link a ∉ used.
Proof.
  induction cs as [|c cs IH]; intros used a; cbn [quotaGroups concat];
    [by intros ?%elem_of_nil|].
  intros [Ha|Ha]%elem_of_app.
  - eapply elem_of_submseteq in Ha; [|apply sublist_submseteq, sublist_take].
    by apply categoryArticlesOf_elem in Ha as (_ & _ & ?).
  - apply IH in Ha. intros Hu. apply Ha, elem_of_union. by left.
Qed.

Lemma quotaGroups_used arts cs : ∀ used a,
  a ∈ concat (quotaGroups arts used cs) →
  link a ∈ usedAfter used (quotaGroups arts used cs).
Proof.
  intros used a Ha. unfold usedAfter. apply elem_of_union. right.
  apply elem_of_list_to_set. by apply list_elem_of_fmap_2.
Qed.

Lemma categoryArticlesOf_NoDup arts used c :
  NoDup arts → NoDup (categoryArticlesOf arts used c).
Proof.
  intros Hnd. unfold categoryArticlesOf. rewrite jsSort_Permutation.
  by apply NoDup_filter.
Qed.

Lemma quotaGroups_NoDup arts cs :
  NoDup arts → ∀ used, NoDup (concat (quotaGroups arts used cs)).
Proof.
  intros Hnd. induction cs as [|c cs IH]; intros used;
    cbn [quotaGroups concat]; [constructor|].
  apply NoDup_app. split; [|split; [|apply IH]].
  - eapply sublist_NoDup; [|apply sublist_take].
    by apply categoryArticlesOf_NoDup.
  - intros x Hx Hx'. apply quotaGroups_fresh in Hx'. apply Hx'.
    apply elem_of_union. right. apply elem_of_list_to_set.
    by apply list_elem_of_fmap_2.
Qed.

Lemma selectQuota_NoDup cfg arts : NoDup arts → NoDup (selectQuota cfg arts).
Proof.
  intros Hnd. unfold selectQuota. rewrite phase1_eq. cbn [fst].
  apply NoDup_app. split; [by apply quotaGroups_NoDup|]. split.
  - intros x Hx Hx'. apply quotaGroups_used in Hx.
    unfold phase2 in Hx'. cbn [fst snd] in Hx'.
    eapply elem_of_submseteq in Hx'; [|apply sublist_submseteq, slice0_sublist].
    by apply list_elem_of_filter in Hx' as [? _].
  - unfold phase2. eapply sublist_NoDup; [|apply slice0_sublist].
    by apply NoDup_filter.
Qed.

Lemma submseteq_NoDup {A} (l k : list A) : l ⊆+ k → NoDup k → NoDup l.
Proof.
  intros [k' Hk]%submseteq_Permutation Hnd. rewrite Hk in Hnd.
  by apply NoDup_app in Hnd as [? _].
Qed.

Lemma categorize_titles_sublist toLowerCase cfg l :
  map title (categorize toLowerCase cfg l) `sublist_of` map title l.
Proof.
  induction l as [|a l IH]; [done|].
  unfold categorize. cbn [flat_map map]. fold (categorize toLowerCase cfg l).
  rewrite map_app. unfold categorizeOne at 1.
  destruct (truthy _); cbn; [by apply sublist_skip|by apply sublist_cons].
Qed.

Lemma scoreAll_titles l : map title (scoreAll l) = map title l.
Proof.
  unfold scoreAll.
  destruct (Math_max (map date l)), (Math_min (map date l)); try done.
  rewrite <- list_fmap_compose. by apply list_fmap_ext.
Qed.

(** X8: in the snapshot of the keyword edition no article is selected
    twice (the two phases of the quota selection never pick the same
    article) and the titles are pairwise distinct, each being the title
    of a deduplicated article. *)
Theorem blended_snapshot_titles_distinct
    (toLowerCase : jsstring → jsstring) (cfg : Config) (env : Env)
    (net : nat → nat → Outcome) (all : list Article) :
  NoDup (map title (articles (main_blended toLowerCase cfg env net all)))
  ∧ NoDup (limitedArticles_blended toLowerCase cfg all)
  ∧ map title (articles (main_blended toLowerCase cfg env net all))
    ⊆+ map title (dedup all).
Proof.
  set (arts := jsSort cmpFinalScore
                 (scoreAll (categorizedArticles_of toLowerCase cfg all))).
  assert (Hsub : map title arts ⊆+ map title (dedup all)).
  { unfold arts. rewrite jsSort_Permutation, scoreAll_titles.
    apply sublist_submseteq, categorize_titles_sublist. }
  assert (Hndt : NoDup (map title arts)).
  { eapply submseteq_NoDup; [exact Hsub|apply dedup_NoDup_titles]. }
  assert (Hnd : NoDup (selectQuota cfg arts)).
  { apply selectQuota_NoDup. by apply NoDup_fmap_1 in Hndt. }
  assert (Hout : map title (selectQuota cfg arts) ⊆+ map title arts).
  { apply fmap_submseteq, NoDup_submseteq; [done|].
    intros x. apply selectQuota_elem. }
  assert (Ht : map title (articles (main_blended toLowerCase cfg env net all))
               = map title (selectQuota cfg arts)).
  { apply (set_summary_Forall2_map title); [done|].
    apply generateSummariesBatch_new_Forall2. }
  rewrite Ht. split; [|split; [done|by etrans]].
  by eapply submseteq_NoDup.
Qed.

(** ** Filling the quota *)






(** ** The range of the blended score *)





(** ** When a category matches *)



(** ** Summaries without a credential *)

Lemma generateSummary_no_key env net text :
  unset (selectedKey env) = true →
  generateSummary env net text = mkRun (fallbackSummary text) 0 [].
Proof.
  unfold selectedKey, generateSummary, generateSummaryWithDeepSeek,
    generateSummaryWithDoubao.
  destruct (isChinese text); [done|].
  by destruct (decide _); intros ->.
Qed.

(** X13: without a Qwen key, and without the key of the provider that
    [AI_PROVIDER] selects, a summary is the first 150 code units of the
    text followed by three dots, with no request and no wait, whatever
    the network does; so is the summary of every article of both
    snapshots (in the recency-only edition also when only the key of
    the provider that is not selected is set). *)
Theorem no_credential_fallback (env : Env) :
  unset (QWEN_API_KEY env) = true →
  unset (selectedKey env) = true →
  (∀ net text,
     summarize_new env net text = mkRun (fallbackSummary text) 0 []
     ∧ generateSummary env net text = mkRun (fallbackSummary text) 0 [])
  ∧ (∀ toLowerCase net all,
       Forall (λ b, summary b = fallbackSummary (description b))
              (articles (main_new toLowerCase env net all)))
  ∧ (∀ cats net all,
       Forall (λ b, summary b = fallbackSummary (description b))
              (articles (main_optimized cats env net all))).
Proof.
  intros Hq Hs. split; [|split].
  - intros net text. split; [|by apply generateSummary_no_key].
    unfold summarize_new, generateSummaryWithQwen. by rewrite Hq.
  - intros toLowerCase net all. cbn [articles main_new main_blended].
    unfold generateSummariesBatch_new. rewrite Hq.
    apply Forall_forall. by intros b (b0 & -> & _)%list_elem_of_fmap.
  - intros cats net all. cbn [articles main_optimized].
    apply Forall_forall. intros b Hb. destruct (_ || _).
    + unfold generateSummariesBatch_optimized in Hb.
      apply elem_of_lookup_imap in Hb as (i & b0 & -> & _). cbn.
      by rewrite generateSummary_no_key.
    + by apply list_elem_of_fmap in Hb as (b0 & -> & _).
Qed.

Lemma no_credential_fallback_witness :
  unset (QWEN_API_KEY env_deepseek_only) = true
  ∧ unset (selectedKey env_deepseek_only) = true
  ∧ Forall (λ b, summary b = fallbackSummary (description b))
      (articles (main_optimized [] env_deepseek_only
                   (λ _ _, OkSummary (str "ok")) [art_steel; art_coating])).
Proof.
  split; [reflexivity|]. split; [reflexivity|].
  apply (no_credential_fallback env_deepseek_only eq_refl eq_refl).
Defined.

(** ** The time a call may wait *)

Lemma retryBehaviour_wait net text r :
  retryBehaviour net text r → (fetches r ≤ 3)%nat ∧ totalWait r ≤ 9000.
Proof.
  intros ([_ Hf] & Hd & _). split; [done|]. unfold totalWait. rewrite Hd.
  destruct (fetches r) as [|[|[|[|n]]]]; cbn; lia.
Qed.

(** X14: whatever the network does and whatever the credentials are,
    a summary costs at most 3 requests and at most 9 seconds of waiting
    between them. *)
Theorem summary_call_bounded
    (env : Env) (net : nat → Outcome) (text : jsstring) :
  ((fetches (generateSummary env net text) ≤ 3)%nat
   ∧ totalWait (generateSummary env net text) ≤ 9000)
  ∧ ((fetches (summarize_new env net text) ≤ 3)%nat
     ∧ totalWait (summarize_new env net text) ≤ 9000).
Proof.
  split.
  - unfold generateSummary, generateSummaryWithDeepSeek,
      generateSummaryWithDoubao.
    destruct (isChinese text); [cbn; lia|].
    destruct (decide _); destruct (unset _); try (cbn; lia);
      eapply retryBehaviour_wait, chatLoop_behaviour.
  - unfold summarize_new, generateSummaryWithQwen.
    destruct (unset _); [cbn; lia|]. destruct (isChinese text); [cbn; lia|].
    eapply retryBehaviour_wait, qwenLoop_behaviour.
Qed.

(** ** Doubao and DeepSeek retry after every failure *)

Lemma chatLoop_stops_on_text net text :
  (fetches (chatLoop net text 3 3 0 []) < 3)%nat →
  ∃ content,
    net (fetches (chatLoop net text 3 3 0 []) - 1)%nat = OkSummary content
    ∧ returned (chatLoop net text 3 3 0 []) = trim content.
Proof.
  rewrite chatLoop_policy.
  destruct (policyLoop_inv net text 3 classifyChat 3 0 [])
    as (Hf & _ & _ & Hnext & Hres); [lia..|].
  set (r := policyLoop _ _ _ _ _ _ _) in *. intros Hlt.
  destruct (net (fetches r - 1)%nat) as [| | | |content] eqn:E;
    cbn [classifyChat] in Hres;
    try (specialize (Hnext (fetches r - 1)%nat ltac:(lia) ltac:(lia) ltac:(lia));
         rewrite E in Hnext; specialize (Hnext eq_refl); lia).
  by exists content.
Qed.

(** X15: with their key set, the Doubao and the DeepSeek providers stop
    before the third request only on a response that carries a summary,
    which they return trimmed; when none of the three responses carries
    one, whatever the failures are (an error status of any kind, a
    thrown request, a response without content), they make all three
    requests, wait 3 and 6 seconds between them and return the first
    150 code units of the text followed by three dots. *)
Theorem chat_providers_retry_every_failure
    (net : nat → Outcome) (text : jsstring) (env : Env) :
  unset (DOUBAO_API_KEY env) = false →
  unset (DEEPSEEK_API_KEY env) = false →
  Forall (λ r, ((fetches r < 3)%nat →
                ∃ content, net (fetches r - 1)%nat = OkSummary content
                           ∧ returned r = trim content)
               ∧ ((∀ n content, (n < 3)%nat → net n ≠ OkSummary content) →
                  r = mkRun (fallbackSummary text) 3 [3000; 6000]))
         [generateSummaryWithDoubao net text 3 env;
          generateSummaryWithDeepSeek net text 3 env].
Proof.
  intros H1 H2.
  unfold generateSummaryWithDoubao, generateSummaryWithDeepSeek.
  rewrite H1, H2.
  assert (H : ((fetches (chatLoop net text 3 3 0 []) < 3)%nat →
               ∃ content,
                 net (fetches (chatLoop net text 3 3 0 []) - 1)%nat
                 = OkSummary content
                 ∧ returned (chatLoop net text 3 3 0 []) = trim content)
              ∧ ((∀ n content, (n < 3)%nat → net n ≠ OkSummary content) →
                 chatLoop net text 3 3 0 []
                 = mkRun (fallbackSummary text) 3 [3000; 6000])).
  { split; [apply chatLoop_stops_on_text|].
    intros Hno. cbn.
    destruct (net 0%nat) eqn:E0; try (by destruct (Hno 0%nat content ltac:(lia)));
    destruct (net 1%nat) eqn:E1; try (by destruct (Hno 1%nat content ltac:(lia)));
    destruct (net 2%nat) eqn:E2; try (by destruct (Hno 2%nat content ltac:(lia)));
    repeat match goal with
           | |- context [isRateLimit ?s] => destruct (isRateLimit s)
           end; reflexivity. }
  repeat constructor; apply H.
Qed.

Lemma chat_providers_retry_every_failure_witness :
  unset (DOUBAO_API_KEY env_keys) = false
  ∧ unset (DEEPSEEK_API_KEY env_keys) = false
  ∧ Forall (λ r, ((fetches r < 3)%nat →
                  ∃ content,
                    net_500_then_ok (fetches r - 1)%nat = OkSummary content
                    ∧ returned r = trim content)
                 ∧ ((∀ n content, (n < 3)%nat →
                       net_500_then_ok n ≠ OkSummary content) →
                    r = mkRun (fallbackSummary text_english) 3 [3000; 6000]))
           [generateSummaryWithDoubao net_500_then_ok text_english 3 env_keys;
            generateSummaryWithDeepSeek net_500_then_ok text_english 3 env_keys].
Proof.
  split; [reflexivity|]. split; [reflexivity|].
  exact (chat_providers_retry_every_failure net_500_then_ok text_english
           env_keys eq_refl eq_refl).
Defined.

(** ** Batches *)

Lemma batchLoop_spec {A} (articles : list A) fuel : ∀ i,
  (length articles - i < fuel)%nat →
  concat (batchLoop fuel i articles).1 = drop i articles
  ∧ Forall (λ b, (1 ≤ length b ≤ 3)%nat) (batchLoop fuel i articles).1
  ∧ (length articles - i ≤ 3 * length (batchLoop fuel i articles).1
     < length articles - i + 3)%nat
  ∧ (batchLoop fuel i articles).2
    = pred (length (batchLoop fuel i articles).1).
Proof.
  induction fuel as [|fuel IH]; intros i Hfuel; [lia|].
  cbn [batchLoop]. destruct (Nat.ltb_spec i (length articles)) as [Hi|Hi].
  - destruct (IH (i + BATCH_SIZE)%nat) as (Hc & Hf & Hn & Hp);
      [unfold BATCH_SIZE; lia|].
    cbn [fst snd concat length]. unfold BATCH_SIZE in *.
    split; [|split; [|split]].
    + rewrite Hc, <- drop_drop. apply take_drop.
    + constructor; [|done]. rewrite length_take, length_drop. lia.
    + lia.
    + rewrite Hp. destruct (Nat.ltb_spec (i + 3) (length articles)); lia.
  - cbn. rewrite drop_ge by lia. repeat split; [constructor|lia..].
Qed.

(** X16: the batches of [generateSummariesBatch] are consecutive
    slices that together give the articles back in order, each of 1 to 3
    articles, as few as possible, and the one-second pause is made
    between two batches only: once less than there are batches. *)
Theorem batchesOf_partition {A} (articles : list A) :
  concat (batchesOf articles).1 = articles
  ∧ Forall (λ b, (1 ≤ length b ≤ 3)%nat) (batchesOf articles).1
  ∧ (length articles ≤ 3 * length (batchesOf articles).1
     < length articles + 3)%nat
  ∧ (batchesOf articles).2 = pred (length (batchesOf articles).1).
Proof.
  destruct (batchLoop_spec articles (S (length articles)) 0)
    as (Hc & Hf & Hn & Hp); [lia|].
  unfold batchesOf. rewrite Nat.sub_0_r in Hn. by rewrite drop_0 in Hc.
Qed.

(** ** The cleaned key *)

Lemma trimmedb_filter (P : N → Prop) `{!∀ c, Decision (P c)} s :
  (∀ c, isWhiteSpace c = false → P c) →
  trimmedb s = true → trimmedb (filter P s) = true.
Proof.
  intros HP. unfold trimmedb.
  destruct s as [|c s]; [done|].
  destruct (last (c :: s)) as [d|] eqn:Hl; [|by apply last_None in Hl].
  cbn [head]. intros [Hc Hd]%andb_true_iff.
  apply negb_true_iff in Hc, Hd.
  rewrite filter_cons_True by by apply HP. cbn [head].
  assert (last (filter P (c :: s)) = Some d) as Hl'.
  { rewrite <- head_reverse, <- filter_reverse.
    rewrite <- head_reverse in Hl.
    destruct (reverse (c :: s)) as [|x r]; [done|]. injection Hl as ->.
    by rewrite filter_cons_True by by apply HP. }
  rewrite filter_cons_True in Hl' by by apply HP.
  by rewrite Hl', Hc, Hd.
Qed.

Lemma filter_Forall_id {A} (P : A → Prop) `{!∀ x, Decision (P x)} l :
  Forall P l → filter P l = l.
Proof.
  induction 1 as [|x l Hx _ IH]; [done|].
  rewrite filter_cons_True by done. by rewrite IH.
Qed.

(** X17: the cleaned Qwen key holds no carriage return, line feed or
    tab, neither starts nor ends with white space, is left as it is by a
    second cleaning, and equals the configured key when that holds no
    white space at all. *)
Theorem cleanApiKey_clean (apiKey : jsstring) :
  Forall (λ c, c ≠ 13%N ∧ c ≠ 10%N ∧ c ≠ 9%N) (cleanApiKey apiKey)
  ∧ trimmedb (cleanApiKey apiKey) = true
  ∧ cleanApiKey (cleanApiKey apiKey) = cleanApiKey apiKey
  ∧ (forallb (λ c, negb (isWhiteSpace c)) apiKey = true →
     cleanApiKey apiKey = apiKey).
Proof.
  assert (Hws : ∀ c, isWhiteSpace c = false → c ≠ 13%N ∧ c ≠ 10%N ∧ c ≠ 9%N).
  { intros c Hc. repeat split; intros ->; done. }
  assert (H1 : Forall (λ c, c ≠ 13%N ∧ c ≠ 10%N ∧ c ≠ 9%N) (cleanApiKey apiKey)).
  { apply Forall_forall. intros c Hc. unfold cleanApiKey in Hc.
    by apply list_elem_of_filter in Hc as [? _]. }
  assert (H2 : trimmedb (cleanApiKey apiKey) = true).
  { unfold cleanApiKey. apply trimmedb_filter; [done|apply trim_trimmed]. }
  split; [done|]. split; [done|]. split.
  - unfold cleanApiKey at 1. rewrite trim_id by done.
    by apply filter_Forall_id.
  - intros Hall. unfold cleanApiKey.
    assert (Hno : Forall (λ c, isWhiteSpace c = false) apiKey).
    { apply Forall_forall. intros c Hc.
      rewrite forallb_forall in Hall.
      apply list_elem_of_In, Hall in Hc. by apply negb_true_iff. }
    rewrite trim_id.
    + apply filter_Forall_id. eapply Forall_impl; [exact Hno|]. apply Hws.
    + unfold trimmedb. destruct apiKey as [|c s]; [done|].
      destruct (last (c :: s)) as [d|] eqn:Hl; [|done].
      rewrite Forall_forall in Hno. cbn [head].
      rewrite (Hno c) by left.
      rewrite (Hno d); [done|].
      apply last_Some in Hl as [l' ->]. apply elem_of_app. right. left.
Qed.

(** ** The articles of a snapshot *)

Lemma requestsOf_category sources c u :
  (c, u) ∈ requestsOf sources → c ∈ map fst sources.
Proof.
  unfold requestsOf. rewrite list_elem_of_In, in_flat_map.
  intros ([c' urls] & Hin & Hreq). apply list_elem_of_In in Hin.
  apply in_map_iff in Hreq as (u' & [= <- _] & _).
  by apply (list_elem_of_fmap_2 fst) in Hin.
Qed.

Lemma collect_elem {R} (fetch : R → list Article) (reqs : list R) a :
  a ∈ allArticles (collect (map (λ req, Some (fetch req)) reqs)) →
  ∃ req, req ∈ reqs ∧ a ∈ fetch req.
Proof.
  destruct (collect_totals (map (λ req, Some (fetch req)) reqs)) as [-> _].
  rewrite list_elem_of_In, in_concat.
  intros (l & Hl & Ha). apply in_map_iff in Hl as (r & <- & Hr).
  apply in_map_iff in Hr as (req & <- & Hreq).
  exists req. by rewrite !list_elem_of_In.
Qed.

Lemma limitedArticles_recency_elem all a :
  a ∈ limitedArticles_recency all → a ∈ all.
Proof.
  intros Ha.
  eapply elem_of_submseteq in Ha;
    [|apply sublist_submseteq, limitedArticles_recency_sublist].
  apply jsSort_elem in Ha. rewrite dedup_dedupFrom in Ha.
  eapply elem_of_submseteq; [exact Ha|].
  apply sublist_submseteq, dedupFrom_sublist.
Qed.

Lemma main_blended_origin toLowerCase cfg env net all b :
  b ∈ articles (main_blended toLowerCase cfg env net all) →
  ∃ a, a ∈ all ∧ title b = title a ∧ link b = link a
       ∧ description b = description a ∧ date b = date a
       ∧ category b ∈ keys cfg.
Proof.
  cbn [articles main_blended].
  intros (b1 & s & Hb1 & ->)%generateSummariesBatch_new_elem.
  unfold limitedArticles_blended in Hb1.
  apply selectQuota_elem, jsSort_elem in Hb1.
  apply scoreAll_elem in Hb1 as (b2 & f & Hb2 & ->).
  apply categorize_elem in Hb2 as (a & Ha & Hb2).
  apply categorizeOne_elem in Hb2 as (c & _ & _ & Hk & _ & ->).
  exists a. repeat split; try done.
  rewrite dedup_dedupFrom in Ha.
  eapply elem_of_submseteq; [exact Ha|].
  apply sublist_submseteq, dedupFrom_sublist.
Qed.

(** X18: in the snapshot of each of the three scripts, every article
    has a description of at most 500 code units without a tag, a title
    and a link without white space at either end, and a category that
    the snapshot lists among its categories; in the first script the
    summary is the first 150 code units of the description followed by
    three dots. *)
Theorem snapshots_well_formed
    (parseDate : jsstring → option Z) (now : Z)
    (parseURL : jsstring → option (list Item)) :
  (∀ sources,
     Forall (λ b, wellFormedArticle
                    (run_sequential parseDate now parseURL sources) b
                  ∧ summary b = fallbackSummary (description b))
            (articles (run_sequential parseDate now parseURL sources)))
  ∧ (∀ sources env net,
       Forall (wellFormedArticle
                 (run_optimized parseDate now parseURL sources env net))
              (articles (run_optimized parseDate now parseURL sources env net)))
  ∧ (∀ toLowerCase env net,
       Forall (wellFormedArticle
                 (run_keyword parseDate now parseURL toLowerCase env net))
              (articles (run_keyword parseDate now parseURL toLowerCase env net))).
Proof.
  split; [|split].
  - intros sources. apply Forall_forall. intros b Hb.
    cbn [articles run_sequential main_sequential] in Hb.
    apply limitedArticles_recency_elem in Hb.
    apply (collect_elem (λ req, fetchRSS_sequential parseDate now
                                  (parseURL req.2) req.1)) in Hb
      as ([c u] & Hreq & Hb). cbn in Hb.
    destruct (fetchRSS_fields parseDate now (parseURL u) c) as (H & _ & _).
    rewrite Forall_forall in H.
    destruct (H b Hb) as ((H1 & H2 & H3 & H4 & _) & Hc & Hs).
    repeat split; try done. rewrite Hc. cbn.
    by eapply requestsOf_category.
  - intros sources env net. apply Forall_forall. intros b Hb.
    unfold run_optimized in Hb.
    apply list_elem_of_lookup in Hb as [i Hi].
    destruct (Forall2_lookup_r _ _ _ _ _
                (main_optimized_Forall2 _ _ _ _) Hi) as (b0 & Hb0 & s & ->).
    apply list_elem_of_lookup_2, limitedArticles_recency_elem in Hb0.
    apply (collect_elem (λ req, fetchRSS_optimized parseDate now
                                  (parseURL req.2) req.1)) in Hb0
      as ([c u] & Hreq & Hb0). cbn in Hb0.
    destruct (fetchRSS_fields parseDate now (parseURL u) c) as (_ & H & _).
    rewrite Forall_forall in H.
    destruct (H b0 Hb0) as ((H1 & H2 & H3 & H4 & _) & Hc & _).
    repeat split; try done. cbn. rewrite Hc.
    by eapply requestsOf_category.
  - intros toLowerCase env net. apply Forall_forall. intros b Hb.
    unfold run_keyword, main_new in Hb.
    apply main_blended_origin in Hb as (a & Ha & Ht & Hl & Hd & _ & Hk).
    apply (collect_elem (λ url, fetchRSS_keyword parseDate now (parseURL url)))
      in Ha as (u & _ & Ha).
    destruct (fetchRSS_fields parseDate now (parseURL u) []) as (_ & _ & H).
    rewrite Forall_forall in H.
    destruct (H a Ha) as ((H1 & H2 & H3 & H4 & _) & _).
    unfold wellFormedArticle. rewrite Ht, Hl, Hd. repeat split; done.
Qed.

(** ** Phase 1 picks the most relevant candidates *)

Lemma quotaGroups_category arts cs : ∀ used a,
  a ∈ concat (quotaGroups arts used cs) → category a ∈ cs.
Proof.
  induction cs as [|c cs IH]; intros used a; cbn [quotaGroups concat];
    [by intros ?%elem_of_nil|].
  intros [Ha|Ha]%elem_of_app.
  - eapply elem_of_submseteq in Ha; [|apply sublist_submseteq, sublist_take].
    apply categoryArticlesOf_elem in Ha as (_ & -> & _). left.
  - right. by eapply IH.
Qed.





(** ** The minimum per category in the snapshot *)







